(** * Unscented Kalman filter (ukf.cpp): a shallow embedding

    The filter of [src/ukf.cpp] is transcribed function by function.
    Conventions of the embedding:

    - a C++ [double] / [float] is read as a real number ([R] of the Standard
      Library): rounding, infinities and NaN are not modelled there.  A
      property that the code could only reach through a division by zero
      assumes that there is none ([determinant], [off_origin]);
    - where a property depends on rounding (the weights that the
      constructor stores, the exit of the angle loops) the code is
      transcribed a second time over IEEE binary64, the [spec_float] of the
      Standard Library, in [Module Double];
    - a timestamp ([long long], microseconds) is an integer of [Z];
    - an Eigen [VectorXd] is a [list R]; an Eigen [MatrixXd] that the code
      reads and writes entry by entry or as a whole (P, S, R, Tc, K, L) is a
      list of rows; a sigma-point matrix, which the code only ever reads and
      writes one column at a time ([Xsig_aug], [Xsig_pred_], [Zsig]), is the
      list of its columns;
    - a [for] loop over the sigma points is a fold over
      [seq 0 (2 * n_aug_ + 1)];
    - the two [while] loops that bring an angle back towards [-pi, pi] are
      written with an iteration budget ([while_above], [while_below]);
      [angle_normalization] runs them with the budget [turns], which is
      shown to suffice in exact arithmetic;
    - [std::cout] is the list of the items written so far, carried in the
      filter object;
    - Eigen's [llt().matrixL()] and [inverse()] are library code: they are
      given here by the textbook Cholesky recurrence and by the adjugate
      formula for the two sizes the filter inverts (2x2 and 3x3);
    - the members of the class are the ones [ukf.cpp] assigns ([ukf.h] is
      not part of the sources); [lambda_] is a [double]; the members the
      constructor allocates without a value ([x_], [Xsig_pred_]) hold
      zeros. *)

From Stdlib Require Import String.
From Stdlib Require Import Reals List ZArith Lra Lia Bool Psatz.
From Stdlib Require SpecFloat.
Import ListNotations.
Open Scope list_scope.
Open Scope R_scope.

(** ** Vectors and matrices *)

Abbreviation VectorXd := (list R).
Abbreviation MatrixXd := (list (list R)).   (* rows *)
Abbreviation Columns := (list (list R)).   (* columns of a sigma-point matrix *)

Definition zeros (n : nat) : VectorXd := repeat 0 n.
Definition mzeros (r c : nat) : MatrixXd := repeat (zeros c) r.

Definition vget (v : VectorXd) (i : nat) : R := nth i v 0.

Fixpoint vset (i : nat) (a : R) (v : VectorXd) : VectorXd :=
  match v, i with
  | [], _ => []
  | _ :: t, O => a :: t
  | h :: t, S k => h :: vset k a t
  end.

Fixpoint vzip (f : R -> R -> R) (a b : VectorXd) : VectorXd :=
  match a, b with
  | x :: a', y :: b' => f x y :: vzip f a' b'
  | _, _ => []
  end.

Definition vadd := vzip Rplus.
Definition vsub := vzip Rminus.
Definition vscale (c : R) (v : VectorXd) : VectorXd := map (Rmult c) v.

Fixpoint dot (a b : VectorXd) : R :=
  match a, b with
  | x :: a', y :: b' => x * y + dot a' b'
  | _, _ => 0
  end.

Fixpoint mzip (f : R -> R -> R) (A B : MatrixXd) : MatrixXd :=
  match A, B with
  | r :: A', s :: B' => vzip f r s :: mzip f A' B'
  | _, _ => []
  end.

Definition madd := mzip Rplus.
Definition msub := mzip Rminus.
Definition mscale (c : R) (A : MatrixXd) : MatrixXd := map (vscale c) A.
Definition mget (A : MatrixXd) (i j : nat) : R := nth j (nth i A []) 0.

(** [a * b.transpose()] *)
Definition outer (a b : VectorXd) : MatrixXd := map (fun x => vscale x b) a.

(** [A.col(j)] of a matrix stored by rows *)
Definition col (j : nat) (A : MatrixXd) : VectorXd := map (fun r => nth j r 0) A.

Definition mat_vec (A : MatrixXd) (v : VectorXd) : VectorXd :=
  map (fun r => dot r v) A.

(** [A * B.transpose()]: entry (i,j) is row i of A times row j of B *)
Definition mul_transpose (A B : MatrixXd) : MatrixXd :=
  map (fun r => map (fun s => dot r s) B) A.

Definition transpose (cols : nat) (A : MatrixXd) : MatrixXd :=
  map (fun j => col j A) (seq 0 cols).

Definition mmul (cols : nat) (A B : MatrixXd) : MatrixXd :=
  mul_transpose A (transpose cols B).

(** [v.transpose() * A * v] *)
Definition quad_form (A : MatrixXd) (v : VectorXd) : R := dot v (mat_vec A v).

(** [M * w] for a sigma-point matrix M held by columns: sum of w(i) * M.col(i) *)
Fixpoint cols_mul_vec (n : nat) (M : Columns) (w : VectorXd) : VectorXd :=
  match M, w with
  | c :: M', a :: w' => vadd (vscale a c) (cols_mul_vec n M' w')
  | _, _ => zeros n
  end.

(** ** Library code: Cholesky factor and inverse *)

(** One row of the lower Cholesky factor: [rows] are the finished rows
    0..i-1 (each with its diagonal entry last), [a] is row i of the input
    cut at the diagonal. *)
Fixpoint llt_row (rows : MatrixXd) (a : VectorXd) (acc : VectorXd) : VectorXd :=
  match a with
  | [] => acc
  | aij :: a' =>
      match rows with
      | [] => acc ++ [sqrt (aij - dot acc acc)]
      | rj :: rows' =>
          llt_row rows' a' (acc ++ [(aij - dot acc rj) / nth (length acc) rj 0])
      end
  end.

Fixpoint llt_rows (A : MatrixXd) (done : MatrixXd) : MatrixXd :=
  match A with
  | [] => done
  | a :: A' =>
      llt_rows A' (done ++ [llt_row done (firstn (S (length done)) a) []])
  end.

Definition pad (n : nat) (v : VectorXd) : VectorXd := v ++ zeros (n - length v).

(** [A.llt().matrixL()] *)
Definition llt (A : MatrixXd) : MatrixXd := map (pad (length A)) (llt_rows A []).

Definition det2 (a b c d : R) : R := a * d - b * c.

(** [S.inverse()], for an invertible [S]: with a zero [determinant] the
    code gets infinities and NaN, which are not modelled. *)
Definition inverse (S : MatrixXd) : MatrixXd :=
  match S with
  | [[a; b]; [c; d]] =>
      let dt := det2 a b c d in
      [[d / dt; - b / dt]; [- c / dt; a / dt]]
  | [[a; b; c]; [d; e; f]; [g; h; i]] =>
      let dt := a * det2 e f h i - b * det2 d f g i + c * det2 d e g h in
      [[det2 e f h i / dt; - det2 b c h i / dt; det2 b c e f / dt];
       [- det2 d f g i / dt; det2 a c g i / dt; - det2 a c d f / dt];
       [det2 d e g h / dt; - det2 a b g h / dt; det2 a b d e / dt]]
  | _ => S
  end.

(** ** Angle normalization

    [while (a > M_PI) a -= 2. * M_PI;  while (a < -M_PI) a += 2. * M_PI;]

    Here in exact arithmetic, where every subtraction makes progress;
    [Double.loop_above] and [Double.loop_below] are the same loops on
    doubles. *)

Fixpoint while_above (fuel : nat) (a : R) : option R :=
  match fuel with
  | O => None
  | S k => if Rlt_dec PI a then while_above k (a - 2 * PI) else Some a
  end.

Fixpoint while_below (fuel : nat) (a : R) : option R :=
  match fuel with
  | O => None
  | S k => if Rlt_dec a (- PI) then while_below k (a + 2 * PI) else Some a
  end.

Definition normalize_fuel (fuel : nat) (a : R) : option R :=
  match while_above fuel a with
  | Some b => while_below fuel b
  | None => None
  end.

(** A number of iterations that is enough for both loops. *)
Definition turns (a : R) : nat := S (Z.to_nat (up (Rabs a / (2 * PI)))).

Definition angle_normalization (a : R) : R :=
  match normalize_fuel (turns a) a with
  | Some b => b
  | None => a
  end.

(** The two loops applied to entry [i] of a vector. *)
Definition normalize_at (i : nat) (v : VectorXd) : VectorXd :=
  vset i (angle_normalization (vget v i)) v.

(** ** The filter object *)

Inductive SensorType := LASER | RADAR.

(** What [operator<<] can put on [std::cout]. *)
Inductive output :=
| Text (s : string)
| Number (r : R)
| Endl.

Record MeasurementPackage := {
  timestamp_ : Z;
  sensor_type_ : SensorType;
  raw_measurements_ : VectorXd
}.

Record UKF := {
  is_initialized_ : bool;
  previous_timestamp_ : Z;
  use_laser_ : bool;
  use_radar_ : bool;
  std_a_ : R;
  std_yawdd_ : R;
  std_laspx_ : R;
  std_laspy_ : R;
  std_radr_ : R;
  std_radphi_ : R;
  std_radrd_ : R;
  n_x_ : nat;
  n_aug_ : nat;
  lambda_ : R;
  x_ : VectorXd;
  P_ : MatrixXd;
  Xsig_pred_ : Columns;
  weights_ : VectorXd;
  time_us_ : Z;
  cout : list output
}.

Definition set_x (x : VectorXd) (u : UKF) : UKF :=
  {| is_initialized_ := is_initialized_ u;
     previous_timestamp_ := previous_timestamp_ u;
     use_laser_ := use_laser_ u; use_radar_ := use_radar_ u;
     std_a_ := std_a_ u; std_yawdd_ := std_yawdd_ u;
     std_laspx_ := std_laspx_ u; std_laspy_ := std_laspy_ u;
     std_radr_ := std_radr_ u; std_radphi_ := std_radphi_ u;
     std_radrd_ := std_radrd_ u;
     n_x_ := n_x_ u; n_aug_ := n_aug_ u; lambda_ := lambda_ u;
     x_ := x; P_ := P_ u; Xsig_pred_ := Xsig_pred_ u;
     weights_ := weights_ u; time_us_ := time_us_ u; cout := cout u |}.

Definition set_P (P : MatrixXd) (u : UKF) : UKF :=
  {| is_initialized_ := is_initialized_ u;
     previous_timestamp_ := previous_timestamp_ u;
     use_laser_ := use_laser_ u; use_radar_ := use_radar_ u;
     std_a_ := std_a_ u; std_yawdd_ := std_yawdd_ u;
     std_laspx_ := std_laspx_ u; std_laspy_ := std_laspy_ u;
     std_radr_ := std_radr_ u; std_radphi_ := std_radphi_ u;
     std_radrd_ := std_radrd_ u;
     n_x_ := n_x_ u; n_aug_ := n_aug_ u; lambda_ := lambda_ u;
     x_ := x_ u; P_ := P; Xsig_pred_ := Xsig_pred_ u;
     weights_ := weights_ u; time_us_ := time_us_ u; cout := cout u |}.

Definition set_Xsig_pred (X : Columns) (u : UKF) : UKF :=
  {| is_initialized_ := is_initialized_ u;
     previous_timestamp_ := previous_timestamp_ u;
     use_laser_ := use_laser_ u; use_radar_ := use_radar_ u;
     std_a_ := std_a_ u; std_yawdd_ := std_yawdd_ u;
     std_laspx_ := std_laspx_ u; std_laspy_ := std_laspy_ u;
     std_radr_ := std_radr_ u; std_radphi_ := std_radphi_ u;
     std_radrd_ := std_radrd_ u;
     n_x_ := n_x_ u; n_aug_ := n_aug_ u; lambda_ := lambda_ u;
     x_ := x_ u; P_ := P_ u; Xsig_pred_ := X;
     weights_ := weights_ u; time_us_ := time_us_ u; cout := cout u |}.

Definition set_previous_timestamp (t : Z) (u : UKF) : UKF :=
  {| is_initialized_ := is_initialized_ u;
     previous_timestamp_ := t;
     use_laser_ := use_laser_ u; use_radar_ := use_radar_ u;
     std_a_ := std_a_ u; std_yawdd_ := std_yawdd_ u;
     std_laspx_ := std_laspx_ u; std_laspy_ := std_laspy_ u;
     std_radr_ := std_radr_ u; std_radphi_ := std_radphi_ u;
     std_radrd_ := std_radrd_ u;
     n_x_ := n_x_ u; n_aug_ := n_aug_ u; lambda_ := lambda_ u;
     x_ := x_ u; P_ := P_ u; Xsig_pred_ := Xsig_pred_ u;
     weights_ := weights_ u; time_us_ := time_us_ u; cout := cout u |}.

Definition set_is_initialized (b : bool) (u : UKF) : UKF :=
  {| is_initialized_ := b;
     previous_timestamp_ := previous_timestamp_ u;
     use_laser_ := use_laser_ u; use_radar_ := use_radar_ u;
     std_a_ := std_a_ u; std_yawdd_ := std_yawdd_ u;
     std_laspx_ := std_laspx_ u; std_laspy_ := std_laspy_ u;
     std_radr_ := std_radr_ u; std_radphi_ := std_radphi_ u;
     std_radrd_ := std_radrd_ u;
     n_x_ := n_x_ u; n_aug_ := n_aug_ u; lambda_ := lambda_ u;
     x_ := x_ u; P_ := P_ u; Xsig_pred_ := Xsig_pred_ u;
     weights_ := weights_ u; time_us_ := time_us_ u; cout := cout u |}.

Definition set_use (laser radar : bool) (u : UKF) : UKF :=
  {| is_initialized_ := is_initialized_ u;
     previous_timestamp_ := previous_timestamp_ u;
     use_laser_ := laser; use_radar_ := radar;
     std_a_ := std_a_ u; std_yawdd_ := std_yawdd_ u;
     std_laspx_ := std_laspx_ u; std_laspy_ := std_laspy_ u;
     std_radr_ := std_radr_ u; std_radphi_ := std_radphi_ u;
     std_radrd_ := std_radrd_ u;
     n_x_ := n_x_ u; n_aug_ := n_aug_ u; lambda_ := lambda_ u;
     x_ := x_ u; P_ := P_ u; Xsig_pred_ := Xsig_pred_ u;
     weights_ := weights_ u; time_us_ := time_us_ u; cout := cout u |}.

Definition print (items : list output) (u : UKF) : UKF :=
  {| is_initialized_ := is_initialized_ u;
     previous_timestamp_ := previous_timestamp_ u;
     use_laser_ := use_laser_ u; use_radar_ := use_radar_ u;
     std_a_ := std_a_ u; std_yawdd_ := std_yawdd_ u;
     std_laspx_ := std_laspx_ u; std_laspy_ := std_laspy_ u;
     std_radr_ := std_radr_ u; std_radphi_ := std_radphi_ u;
     std_radrd_ := std_radrd_ u;
     n_x_ := n_x_ u; n_aug_ := n_aug_ u; lambda_ := lambda_ u;
     x_ := x_ u; P_ := P_ u; Xsig_pred_ := Xsig_pred_ u;
     weights_ := weights_ u; time_us_ := time_us_ u;
     cout := cout u ++ items |}.

Definition identity (n : nat) : MatrixXd :=
  map (fun i => map (fun j => if Nat.eqb i j then 1 else 0) (seq 0 n)) (seq 0 n).

(** ** UKF::UKF() *)

(** The weights loop of the constructor,
    [weights_(0) = weight_0; for (i = 1; i < 2 * n_aug_ + 1; i++) weights_(i) = weight;]
    with the quotients in exact arithmetic; [Double.weights] are the doubles
    that are stored. *)
Definition build_weights (lambda : R) (n_aug : nat) : VectorXd :=
  let weight_0 := lambda / (lambda + INR n_aug) in
  weight_0 :: map (fun _ => 0.5 / (INR n_aug + lambda)) (seq 1 (2 * n_aug)).

Definition UKF_new : UKF :=
  let n_x := 5%nat in
  let n_aug := 7%nat in
  let lambda := 3 - INR n_aug in
  {| is_initialized_ := false;
     previous_timestamp_ := 0%Z;
     use_laser_ := true;
     use_radar_ := true;
     std_a_ := 0.5;
     std_yawdd_ := 1.0;
     std_laspx_ := 0.15;
     std_laspy_ := 0.15;
     std_radr_ := 0.3;
     std_radphi_ := 0.03;
     std_radrd_ := 0.3;
     n_x_ := n_x;
     n_aug_ := n_aug;
     lambda_ := lambda;
     x_ := zeros 5;
     P_ := identity 5;
     Xsig_pred_ := repeat (zeros n_x) (2 * n_aug + 1);
     weights_ := build_weights lambda n_aug;
     time_us_ := 0%Z;
     cout := [] |}.

(** ** UKF::Initialize *)

(** [rho], [phi] and [rho_dot] are [float] locals in the code; they are read
    as the real numbers of the record, without the rounding to single
    precision. *)
Definition Initialize (meas_package : MeasurementPackage) (u : UKF) : UKF :=
  let u := print [Text "UKF: "; Endl] u in
  let x := zeros (length (x_ u)) in
  let x :=
    match sensor_type_ meas_package with
    | RADAR =>
        let rho := vget (raw_measurements_ meas_package) 0 in
        let phi := vget (raw_measurements_ meas_package) 1 in
        let rho_dot := vget (raw_measurements_ meas_package) 2 in
        let x := vset 0 (rho * cos phi) x in
        let x := vset 1 (rho * sin phi) x in
        let x := vset 2 (rho_dot * cos phi) x in
        let x := vset 3 (rho_dot * sin phi) x in
        vset 4 0 x
    | LASER =>
        let x := vset 0 (vget (raw_measurements_ meas_package) 0) x in
        let x := vset 1 (vget (raw_measurements_ meas_package) 1) x in
        let x := vset 2 0 x in
        let x := vset 3 0 x in
        vset 2 0 x
    end in
  let u := set_x x u in
  let u := set_previous_timestamp (timestamp_ meas_package) u in
  set_is_initialized true u.

(** ** UKF::AugmentedSigmaPoints *)

Definition augmented_mean (u : UKF) : VectorXd := x_ u ++ [0; 0].

Definition augmented_covariance (u : UKF) : MatrixXd :=
  map (fun r => r ++ [0; 0]) (P_ u)
  ++ [zeros 5 ++ [std_a_ u * std_a_ u; 0];
      zeros 5 ++ [0; std_yawdd_ u * std_yawdd_ u]].

Definition AugmentedSigmaPoints (u : UKF) : Columns :=
  let x_aug := augmented_mean u in
  let P_aug := augmented_covariance u in
  let L := llt P_aug in
  let c := sqrt (lambda_ u + INR (n_aug_ u)) in
  x_aug
  :: map (fun i => vadd x_aug (vscale c (col i L))) (seq 0 (n_aug_ u))
  ++ map (fun i => vsub x_aug (vscale c (col i L))) (seq 0 (n_aug_ u)).

(** ** UKF::SigmaPointPrediction *)

(** The body of the loop: one augmented column to one predicted column. *)
Definition predict_column (delta_t : R) (c : VectorXd) : VectorXd :=
  let p_x := vget c 0 in
  let p_y := vget c 1 in
  let v := vget c 2 in
  let yaw := vget c 3 in
  let yawd := vget c 4 in
  let nu_a := vget c 5 in
  let nu_yawdd := vget c 6 in
  let px_p :=
    if Rlt_dec 0.001 (Rabs yawd)
    then p_x + v / yawd * (sin (yaw + yawd * delta_t) - sin yaw)
    else p_x + v * delta_t * cos yaw in
  let py_p :=
    if Rlt_dec 0.001 (Rabs yawd)
    then p_y + v / yawd * (cos yaw - cos (yaw + yawd * delta_t))
    else p_y + v * delta_t * sin yaw in
  let v_p := v in
  let yaw_p := yaw + yawd * delta_t in
  let yawd_p := yawd in
  let px_p := px_p + 0.5 * nu_a * delta_t * delta_t * cos yaw in
  let py_p := py_p + 0.5 * nu_a * delta_t * delta_t * sin yaw in
  let v_p := v_p + nu_a * delta_t in
  let yaw_p := yaw_p + 0.5 * nu_yawdd * delta_t * delta_t in
  let yawd_p := yawd_p + nu_yawdd * delta_t in
  [px_p; py_p; v_p; yaw_p; yawd_p].

Definition SigmaPointPrediction (delta_t : R) (u : UKF) : Columns :=
  let Xsig_aug := AugmentedSigmaPoints u in
  map (fun i => predict_column delta_t (nth i Xsig_aug []))
      (seq 0 (2 * n_aug_ u + 1)).

(** ** UKF::PredictMeanAndCovariance *)

Definition predicted_mean (u : UKF) : VectorXd :=
  fold_left (fun x i => vadd x (vscale (vget (weights_ u) i) (nth i (Xsig_pred_ u) [])))
            (seq 0 (2 * n_aug_ u + 1)) (zeros (n_x_ u)).

(** The covariance loop, from sigma point [i] of the list on. *)
Definition covariance_loop (w : VectorXd) (Xsig : Columns) (x : VectorXd)
    (idx : list nat) (P0 : MatrixXd) : MatrixXd :=
  fold_left (fun P i =>
               let x_diff := normalize_at 3 (vsub (nth i Xsig []) x) in
               madd P (outer (vscale (vget w i) x_diff) x_diff))
            idx P0.

Definition predicted_covariance (u : UKF) (x : VectorXd) : MatrixXd :=
  covariance_loop (weights_ u) (Xsig_pred_ u) x
                  (seq 0 (2 * n_aug_ u + 1)) (mzeros (n_x_ u) (n_x_ u)).

Definition PredictMeanAndCovariance (u : UKF) : VectorXd * MatrixXd :=
  let x := predicted_mean u in
  (x, predicted_covariance u x).

(** ** UKF::Prediction *)

Definition Prediction (delta_t : R) (u : UKF) : UKF :=
  let u := set_Xsig_pred (SigmaPointPrediction delta_t u) u in
  let '(x, P) := PredictMeanAndCovariance u in
  set_P P (set_x x u).

(** ** UKF::UpdateState *)

(** The cross-correlation loop. *)
Definition cross_correlation (u : UKF) (n_z : nat) (Zsig : Columns)
    (z_pred : VectorXd) : MatrixXd :=
  fold_left (fun Tc i =>
               let z_diff := normalize_at 1 (vsub (nth i Zsig []) z_pred) in
               let x_diff := normalize_at 3 (vsub (nth i (Xsig_pred_ u) []) (x_ u)) in
               madd Tc (outer (vscale (vget (weights_ u) i) x_diff) z_diff))
            (seq 0 (2 * n_aug_ u + 1)) (mzeros (n_x_ u) n_z).

Definition kalman_gain (u : UKF) (n_z : nat) (Zsig : Columns) (S : MatrixXd)
    (z_pred : VectorXd) : MatrixXd :=
  mmul n_z (cross_correlation u n_z Zsig z_pred) (inverse S).

(** Returns the residual [z_diff] and the filter with [x_] and [P_] updated. *)
Definition UpdateState (n_z : nat) (z : VectorXd) (Zsig : Columns) (S : MatrixXd)
    (z_pred : VectorXd) (u : UKF) : VectorXd * UKF :=
  let K := kalman_gain u n_z Zsig S z_pred in
  let z_diff := vsub z z_pred in
  let u' := set_x (vadd (x_ u) (mat_vec K z_diff)) u in
  let u' := set_P (msub (P_ u') (mul_transpose (mmul n_z K S) K)) u' in
  (z_diff, u').

(** ** UKF::UpdateLidar *)

Definition lidar_Zsig (u : UKF) : Columns :=
  map (fun i => let px := vget (nth i (Xsig_pred_ u) []) 0 in
                let py := vget (nth i (Xsig_pred_ u) []) 1 in
                [px; py])
      (seq 0 (2 * n_aug_ u + 1)).

Definition lidar_S (u : UKF) (Zsig : Columns) (z_pred : VectorXd) : MatrixXd :=
  let S :=
    fold_left (fun S i =>
                 let z_diff := vsub (nth i Zsig []) z_pred in
                 madd S (outer (vscale (vget (weights_ u) i) z_diff) z_diff))
              (seq 0 (2 * n_aug_ u + 1)) (mzeros 2 2) in
  let R := [[std_laspx_ u * std_laspx_ u; 0];
            [0; std_laspy_ u * std_laspy_ u]] in
  madd S R.

(** The filter at the end of the function, with the value of the local [nis]. *)
Definition UpdateLidar_body (meas_package : MeasurementPackage) (u : UKF) : UKF * R :=
  let n_z := 2%nat in
  let z := raw_measurements_ meas_package in
  let Zsig := lidar_Zsig u in
  let z_pred := cols_mul_vec n_z Zsig (weights_ u) in
  let S := lidar_S u Zsig z_pred in
  let '(z_diff, u') := UpdateState n_z z Zsig S z_pred u in
  let nis := quad_form (inverse S) z_diff in
  (u', nis).

Definition UpdateLidar (meas_package : MeasurementPackage) (u : UKF) : UKF :=
  fst (UpdateLidar_body meas_package u).

(** ** UKF::UpdateRadar *)

(** [atan2(y, x)] of the C library, from [atan]. *)
Definition atan2 (y x : R) : R :=
  if Rlt_dec 0 x then atan (y / x)
  else if Rlt_dec x 0 then
         if Rlt_dec y 0 then atan (y / x) - PI else atan (y / x) + PI
  else if Rlt_dec 0 y then PI / 2
  else if Rlt_dec y 0 then - (PI / 2)
  else 0.

(** The measurement model.  The range rate divides by the range: for a
    sigma point at the origin of the plane the code gets NaN, which is not
    modelled; a property that depends on it assumes [off_origin]. *)
Definition radar_Zsig (u : UKF) : Columns :=
  map (fun i =>
         let c := nth i (Xsig_pred_ u) [] in
         let p_x := vget c 0 in
         let p_y := vget c 1 in
         let v := vget c 2 in
         let yaw := vget c 3 in
         let v1 := cos yaw * v in
         let v2 := sin yaw * v in
         [sqrt (p_x * p_x + p_y * p_y);
          atan2 p_y p_x;
          (p_x * v1 + p_y * v2) / sqrt (p_x * p_x + p_y * p_y)])
      (seq 0 (2 * n_aug_ u + 1)).

(** The innovation-covariance loop of the radar. *)
Definition radar_S_loop (w : VectorXd) (Zsig : Columns) (z_pred : VectorXd)
    (idx : list nat) (S0 : MatrixXd) : MatrixXd :=
  fold_left (fun S i =>
               let z_diff := normalize_at 1 (vsub (nth i Zsig []) z_pred) in
               madd S (outer (vscale (vget w i) z_diff) z_diff))
            idx S0.

Definition radar_S (u : UKF) (Zsig : Columns) (z_pred : VectorXd) : MatrixXd :=
  let S := radar_S_loop (weights_ u) Zsig z_pred
                        (seq 0 (2 * n_aug_ u + 1)) (mzeros 3 3) in
  let R := [[std_radr_ u * std_radr_ u; 0; 0];
            [0; std_radphi_ u * std_radphi_ u; 0];
            [0; 0; std_radrd_ u * std_radrd_ u]] in
  madd S R.

Definition UpdateRadar_body (meas_package : MeasurementPackage) (u : UKF) : UKF * R :=
  let n_z := 3%nat in
  let z := raw_measurements_ meas_package in
  let Zsig := radar_Zsig u in
  let z_pred := cols_mul_vec n_z Zsig (weights_ u) in
  let S := radar_S u Zsig z_pred in
  let '(z_diff, u') := UpdateState n_z z Zsig S z_pred u in
  let nis := quad_form (inverse S) z_diff in
  (u', nis).

Definition UpdateRadar (meas_package : MeasurementPackage) (u : UKF) : UKF :=
  fst (UpdateRadar_body meas_package u).

(** ** UKF::ProcessMeasurement *)

(** [(meas_package.timestamp_ - previous_timestamp_) / 1000000.0] *)
Definition delta_t_of (meas_package : MeasurementPackage) (u : UKF) : R :=
  IZR (timestamp_ meas_package - previous_timestamp_ u) / 1000000.

Definition ProcessMeasurement (meas_package : MeasurementPackage) (u : UKF) : UKF :=
  if negb (is_initialized_ u) then Initialize meas_package u
  else
    let dt := delta_t_of meas_package u in
    let u := set_previous_timestamp (timestamp_ meas_package) u in
    let u := Prediction dt u in
    match sensor_type_ meas_package with
    | RADAR => UpdateRadar meas_package u
    | LASER => UpdateLidar meas_package u
    end.

(** ** Double precision

    The parts of the code whose behaviour depends on rounding, transcribed
    over IEEE binary64 with round-to-nearest-even ([spec_float] and the
    operations [SFadd], [SFsub], [SFmul], [SFdiv], [SFsqrt], [SFltb] of the
    Standard Library): the weights of the constructor, the time step of
    ProcessMeasurement, the two angle loops, and the yaw row of
    AugmentedSigmaPoints, SigmaPointPrediction and
    PredictMeanAndCovariance. *)

Module Double.

Import SpecFloat.

Definition double : Set := spec_float.

Definition prec : Z := 53.
Definition emax : Z := 1024.

(** An [int] or [long long] converted to a double. *)
Definition of_int (z : Z) : double := binary_normalize prec emax z 0 false.

Definition add : double -> double -> double := SFadd prec emax.
Definition sub : double -> double -> double := SFsub prec emax.
Definition mul : double -> double -> double := SFmul prec emax.
Definition div : double -> double -> double := SFdiv prec emax.
Definition sqrt : double -> double := SFsqrt prec emax.
Definition lt : double -> double -> bool := SFltb.

(** The literal [0.5]. *)
Definition half : double := S754_finite false 4503599627370496 (-53).

(** [M_PI], the double nearest to pi (0x400921FB54442D18). *)
Definition M_PI : double := S754_finite false 7074237752028440 (-51).

(** The real number that a double stands for (0 for an infinity or a NaN). *)
Definition value (x : double) : R :=
  match x with
  | S754_finite s m e => IZR (cond_Zopp s (Zpos m)) * powerRZ 2 e
  | _ => 0
  end.

(** A double stored in a [float] and read again: rounded to 24 bits. *)
Definition to_float (x : double) : double :=
  match x with
  | S754_finite s m e =>
      match binary_normalize 24 128 (cond_Zopp s (Zpos m)) e s with
      | S754_finite s' m' e' => binary_normalize prec emax (cond_Zopp s' (Zpos m')) e' s'
      | y => y
      end
  | _ => x
  end.

(** UKF::UKF(): [n_aug_ = 7; lambda_ = 3 - n_aug_;], the difference of two
    [int]s stored in a double. *)
Definition n_aug : Z := 7.

Definition lambda : double := of_int (3 - n_aug).

(** [double weight_0 = lambda_ / (lambda_ + n_aug_);] *)
Definition weight_0 : double := div lambda (add lambda (of_int n_aug)).

(** [double weight = 0.5 / (n_aug_ + lambda_);] *)
Definition weight : double := div half (add (of_int n_aug) lambda).

(** [weights_(0) = weight_0; for (i = 1; i < 2 * n_aug_ + 1; i++) weights_(i) = weight;] *)
Definition weights : list double :=
  weight_0 :: map (fun _ => weight) (seq 1 (Z.to_nat (2 * n_aug + 1) - 1)).

(** [while (a > M_PI) a -= 2. * M_PI;] *)
Fixpoint loop_above (fuel : nat) (a : double) : option double :=
  match fuel with
  | O => None
  | S k => if lt M_PI a then loop_above k (sub a (mul (of_int 2) M_PI)) else Some a
  end.

(** [while (a < -M_PI) a += 2. * M_PI;] *)
Fixpoint loop_below (fuel : nat) (a : double) : option double :=
  match fuel with
  | O => None
  | S k => if lt a (SFopp M_PI) then loop_below k (add a (mul (of_int 2) M_PI)) else Some a
  end.

Definition normalize (fuel : nat) (a : double) : option double :=
  match loop_above fuel a with
  | Some b => loop_below fuel b
  | None => None
  end.

(** UKF::ProcessMeasurement:
    [float dt = (meas_package.timestamp_ - previous_timestamp_) / 1000000.0;] *)
Definition delta_t (timestamp previous_timestamp : Z) : double :=
  to_float (div (of_int (timestamp - previous_timestamp)) (of_int 1000000)).

(** UKF::AugmentedSigmaPoints: one entry of the columns [i + 1] and
    [i + 1 + n_aug_],
    [x_aug + sqrt(lambda_ + n_aug_) * L.col(i)] and
    [x_aug - sqrt(lambda_ + n_aug_) * L.col(i)]. *)
Definition sigma_plus (x l : double) : double :=
  add x (mul (sqrt (add lambda (of_int n_aug))) l).

Definition sigma_minus (x l : double) : double :=
  sub x (mul (sqrt (add lambda (of_int n_aug))) l).

(** One row of the 15 augmented sigma columns: [x] is the entry of the
    augmented mean, [l] the row of [L]. *)
Definition sigma_row (x : double) (l : list double) : list double :=
  x :: map (sigma_plus x) l ++ map (sigma_minus x) l.

(** UKF::SigmaPointPrediction:
    [yaw_p = yaw + yawd * delta_t;
     yaw_p = yaw_p + 0.5 * nu_yawdd * delta_t * delta_t;] *)
Definition yaw_p (delta_t yaw yawd nu_yawdd : double) : double :=
  let yaw_p := add yaw (mul yawd delta_t) in
  add yaw_p (mul (mul (mul half nu_yawdd) delta_t) delta_t).

(** Row 3 of [Xsig_pred_], from the rows [yaw], [yawd] and [nu_yawdd] of the
    augmented sigma points. *)
Definition predicted_yaws (delta_t : double) (yaws yawds nus : list double) : list double :=
  map (fun i => yaw_p delta_t (nth i yaws (of_int 0)) (nth i yawds (of_int 0))
                      (nth i nus (of_int 0)))
      (seq 0 (Z.to_nat (2 * n_aug + 1))).

(** UKF::PredictMeanAndCovariance: entry 3 of the predicted mean,
    [x.fill(0.0); for (i ...) x = x + weights_(i) * Xsig_pred_.col(i);] *)
Definition mean_yaw (ys : list double) : double :=
  fold_left (fun x i => add x (mul (nth i weights (of_int 0)) (nth i ys (of_int 0))))
            (seq 0 (Z.to_nat (2 * n_aug + 1))) (of_int 0).

(** [x_diff(3)] of sigma column [i], [Xsig_pred_.col(i) - x], as the angle
    loops of the covariance prediction receive it. *)
Definition x_diff_yaw (ys : list double) (i : nat) : double :=
  sub (nth i ys (of_int 0)) (mean_yaw ys).

End Double.

(** ** Vocabulary of the properties *)

Definition is_matrix (r c : nat) (A : MatrixXd) : Prop :=
  length A = r /\ Forall (fun row => length row = c) A.

Definition symmetric (A : MatrixXd) : Prop := forall i j, mget A i j = mget A j i.

Definition positive_semidefinite (A : MatrixXd) : Prop :=
  forall v, 0 <= quad_form A v.

Definition positive_definite (n : nat) (A : MatrixXd) : Prop :=
  forall v, length v = n -> v <> zeros n -> 0 < quad_form A v.

Definition sum_over (idx : list nat) (f : nat -> R) : R :=
  fold_right (fun i acc => f i + acc) 0 idx.

(** The state difference of sigma point [i], as the covariance loop uses it. *)
Definition deviation (X : Columns) (x : VectorXd) (i : nat) : VectorXd :=
  normalize_at 3 (vsub (nth i X []) x).

(** The cross-correlation loop as the description of the position sensor has
    it: the residual of two observations is their plain difference. *)
Definition cross_correlation_plain (u : UKF) (n_z : nat) (Zsig : Columns)
    (z_pred : VectorXd) : MatrixXd :=
  fold_left (fun Tc i =>
               let z_diff := vsub (nth i Zsig []) z_pred in
               let x_diff := normalize_at 3 (vsub (nth i (Xsig_pred_ u) []) (x_ u)) in
               madd Tc (outer (vscale (vget (weights_ u) i) x_diff) z_diff))
            (seq 0 (2 * n_aug_ u + 1)) (mzeros (n_x_ u) n_z).

(** A record is rejected when it leaves the estimate as it was. *)
Definition rejects (meas_package : MeasurementPackage) (u : UKF) : Prop :=
  let u' := ProcessMeasurement meas_package u in
  Xsig_pred_ u' = Xsig_pred_ u /\ x_ u' = x_ u /\ P_ u' = P_ u.

(** The filter as the update of a later record finds it. *)
Definition before_update (meas_package : MeasurementPackage) (u : UKF) : UKF :=
  Prediction (delta_t_of meas_package u)
             (set_previous_timestamp (timestamp_ meas_package) u).

(** The value of the local [nis] in the update of a later record. *)
Definition cycle_nis (meas_package : MeasurementPackage) (u : UKF) : R :=
  match sensor_type_ meas_package with
  | RADAR => snd (UpdateRadar_body meas_package (before_update meas_package u))
  | LASER => snd (UpdateLidar_body meas_package (before_update meas_package u))
  end.

(** The NIS of the cycle is among the items the cycle wrote on [cout]. *)
Definition reports_nis (meas_package : MeasurementPackage) (u : UKF) : Prop :=
  In (Number (cycle_nis meas_package u))
     (skipn (length (cout u)) (cout (ProcessMeasurement meas_package u))).

(** The determinant that [S.inverse()] divides by. *)
Definition determinant (S : MatrixXd) : R :=
  match S with
  | [[a; b]; [c; d]] => det2 a b c d
  | [[a; b; c]; [d; e; f]; [g; h; i]] =>
      a * det2 e f h i - b * det2 d f g i + c * det2 d e g h
  | _ => 0
  end.

(** A sigma column away from the origin of the plane, where the radar model
    divides by the range. *)
Definition off_origin (c : VectorXd) : Prop :=
  0 < vget c 0 * vget c 0 + vget c 1 * vget c 1.

(** ** The loops with their iteration budget

    [None] when a normalization loop is still running after [fuel] tests. *)

Definition normalize_at_fuel (fuel i : nat) (v : VectorXd) : option VectorXd :=
  match normalize_fuel fuel (vget v i) with
  | Some b => Some (vset i b v)
  | None => None
  end.

(** [for (i in idx) acc = body(acc, i)], where [body] may run out of fuel. *)
Fixpoint for_fuel {A : Type} (body : A -> nat -> option A) (idx : list nat) (acc : A)
  : option A :=
  match idx with
  | [] => Some acc
  | i :: rest =>
      match body acc i with
      | Some acc' => for_fuel body rest acc'
      | None => None
      end
  end.

Definition covariance_loop_fuel (fuel : nat) (w : VectorXd) (Xsig : Columns)
    (x : VectorXd) (idx : list nat) (P0 : MatrixXd) : option MatrixXd :=
  for_fuel (fun P i =>
              match normalize_at_fuel fuel 3 (vsub (nth i Xsig []) x) with
              | Some x_diff => Some (madd P (outer (vscale (vget w i) x_diff) x_diff))
              | None => None
              end)
           idx P0.

Definition radar_S_loop_fuel (fuel : nat) (w : VectorXd) (Zsig : Columns)
    (z_pred : VectorXd) (idx : list nat) (S0 : MatrixXd) : option MatrixXd :=
  for_fuel (fun S i =>
              match normalize_at_fuel fuel 1 (vsub (nth i Zsig []) z_pred) with
              | Some z_diff => Some (madd S (outer (vscale (vget w i) z_diff) z_diff))
              | None => None
              end)
           idx S0.

Definition cross_correlation_fuel (fuel : nat) (u : UKF) (n_z : nat) (Zsig : Columns)
    (z_pred : VectorXd) : option MatrixXd :=
  for_fuel (fun Tc i =>
              match normalize_at_fuel fuel 1 (vsub (nth i Zsig []) z_pred) with
              | Some z_diff =>
                  match normalize_at_fuel fuel 3 (vsub (nth i (Xsig_pred_ u) []) (x_ u)) with
                  | Some x_diff =>
                      Some (madd Tc (outer (vscale (vget (weights_ u) i) x_diff) z_diff))
                  | None => None
                  end
              | None => None
              end)
           (seq 0 (2 * n_aug_ u + 1)) (mzeros (n_x_ u) n_z).

(** ** Checking a Cholesky factor

    [rest] is what remains to be appended to [acc] to make row i of the
    candidate factor. *)
Fixpoint llt_row_ok (rows : MatrixXd) (a : VectorXd) (acc rest : VectorXd) : Prop :=
  match a with
  | [] => rest = []
  | aij :: a' =>
      match rows with
      | [] => match rest with
              | [d] => 0 <= d /\ d * d = aij - dot acc acc
              | _ => False
              end
      | rj :: rows' =>
          match rest with
          | v :: rest' =>
              nth (length acc) rj 0 <> 0 /\
              v * nth (length acc) rj 0 = aij - dot acc rj /\
              llt_row_ok rows' a' (acc ++ [v]) rest'
          | [] => False
          end
      end
  end.

Fixpoint llt_rows_ok (A done L : MatrixXd) : Prop :=
  match A, L with
  | [], [] => True
  | a :: A', l :: L' =>
      llt_row_ok done (firstn (S (length done)) a) [] l /\ llt_rows_ok A' (done ++ [l]) L'
  | _, _ => False
  end.

(** ** Filters and records used in the examples *)

Definition laser00 : MeasurementPackage :=
  {| timestamp_ := 0; sensor_type_ := LASER; raw_measurements_ := [0; 0] |}.

Definition diag5 (p : R) : MatrixXd :=
  [[1; 0; 0; 0; 0]; [0; p; 0; 0; 0]; [0; 0; 1; 0; 0]; [0; 0; 0; 1; 0]; [0; 0; 0; 0; 1]].

(** A tracking filter at the origin, at rest, with heading [y] and the
    variance [p] on its second coordinate. *)
Definition tracking (p y : R) : UKF :=
  set_P (diag5 p) (set_x [0; 0; 0; y; 0] (Initialize laser00 UKF_new)).

Definition s3 := sqrt 3.

Definition Xsig_tracking (p y dt : R) : Columns :=
  [[0; 0; 0; y; 0];
   [s3; 0; 0; y; 0]; [0; s3 * sqrt p; 0; y; 0];
   [s3 * dt * cos y; s3 * dt * sin y; s3; y; 0];
   [0; 0; 0; y + s3; 0]; [0; 0; 0; y + s3 * dt; s3];
   [s3 / 4 * (dt * dt) * cos y; s3 / 4 * (dt * dt) * sin y; s3 / 2 * dt; y; 0];
   [0; 0; 0; y + s3 / 2 * (dt * dt); s3 * dt];
   [- s3; 0; 0; y; 0]; [0; - (s3 * sqrt p); 0; y; 0];
   [- (s3 * dt * cos y); - (s3 * dt * sin y); - s3; y; 0];
   [0; 0; 0; y - s3; 0]; [0; 0; 0; y - s3 * dt; - s3];
   [- (s3 / 4 * (dt * dt) * cos y); - (s3 / 4 * (dt * dt) * sin y); - (s3 / 2 * dt); y; 0];
   [0; 0; 0; y - s3 / 2 * (dt * dt); - (s3 * dt)]].

Definition P_tracking (p y dt : R) : MatrixXd :=
  let m := dt ^ 2 + dt ^ 4 / 16 in
  let n := dt + dt ^ 3 / 8 in
  [[1 + m * cos y * cos y; m * cos y * sin y; n * cos y; 0; 0];
   [m * cos y * sin y; p + m * sin y * sin y; n * sin y; 0; 0];
   [n * cos y; n * sin y; 1 + dt ^ 2 / 4; 0; 0];
   [0; 0; 0; 1 + dt ^ 2 + dt ^ 4 / 4; dt + dt ^ 3 / 2];
   [0; 0; 0; dt + dt ^ 3 / 2; 1 + dt ^ 2]].

(** The filter after [Prediction dt] from [tracking p y]. *)
Definition predicted (p y dt : R) : UKF :=
  set_P (P_tracking p y dt)
        (set_x [0; 0; 0; y; 0] (set_Xsig_pred (Xsig_tracking p y dt) (tracking p y))).

Definition Zsig_tracking (p y dt : R) : Columns :=
  [[0; 0]; [s3; 0]; [0; s3 * sqrt p]; [s3 * dt * cos y; s3 * dt * sin y];
   [0; 0]; [0; 0]; [s3 / 4 * (dt * dt) * cos y; s3 / 4 * (dt * dt) * sin y]; [0; 0];
   [- s3; 0]; [0; - (s3 * sqrt p)]; [- (s3 * dt * cos y); - (s3 * dt * sin y)];
   [0; 0]; [0; 0]; [- (s3 / 4 * (dt * dt) * cos y); - (s3 / 4 * (dt * dt) * sin y)];
   [0; 0]].

Definition S_tracking (p y dt : R) : MatrixXd :=
  let m := dt ^ 2 + dt ^ 4 / 16 in
  [[1 + m * cos y * cos y + 0.15 * 0.15; m * cos y * sin y];
   [m * cos y * sin y; p + m * sin y * sin y + 0.15 * 0.15]].

(** The cross-correlation of the position update, with [zd] the second
    residual of sigma point 2 as the loop leaves it. *)
Definition Tc_tracking (p y dt zd : R) : MatrixXd :=
  let m := dt ^ 2 + dt ^ 4 / 16 in
  let n := dt + dt ^ 3 / 8 in
  [[1 + m * cos y * cos y; m * cos y * sin y];
   [m * cos y * sin y; s3 * sqrt p * zd / 3 + m * sin y * sin y];
   [n * cos y; n * sin y];
   [0; 0];
   [0; 0]].

Definition a7 : R := PI / s3.

Definition P7 : MatrixXd :=
  [[1; 0; 0; a7; 0];
   [0; 1; 0; a7; 0];
   [0; 0; 1; a7; 0];
   [a7; a7; a7; 4 * a7 * a7; 0];
   [0; 0; 0; 0; 0.0005 * 0.0005]].

(** A filter moving at 2 m/s along the first axis whose heading is
    correlated with its position and speed. *)
Definition u7 : UKF := set_P P7 (set_x [0; 0; 2; 0; 0] (Initialize laser00 UKF_new)).

Definition X7 : Columns :=
  [[2; 0; 2; 0; 0];
   [s3 - 2; 0; 2; PI; 0]; [- 2; s3; 2; PI; 0]; [- (2 + s3); 0; 2 + s3; PI; 0];
   [- 2; 0; 2; PI; 0]; [2; 0; 2; s3 * 0.0005; s3 * 0.0005];
   [2 + s3 / 4; 0; 2 + s3 / 2; 0; 0]; [2; 0; 2; s3 / 2; s3];
   [- s3 - 2; 0; 2; - PI; 0]; [- 2; - s3; 2; - PI; 0]; [- (2 - s3); 0; 2 - s3; - PI; 0];
   [- 2; 0; 2; - PI; 0]; [2; 0; 2; - (s3 * 0.0005); - (s3 * 0.0005)];
   [2 - s3 / 4; 0; 2 - s3 / 2; 0; 0]; [2; 0; 2; - (s3 / 2); - s3]].

Definition laser_at_1s : MeasurementPackage :=
  {| timestamp_ := 1000000; sensor_type_ := LASER; raw_measurements_ := [1; 0] |}.

Definition radar_first : MeasurementPackage :=
  {| timestamp_ := 0; sensor_type_ := RADAR; raw_measurements_ := [0; PI / 2; 5] |}.

(** A first radar record of a target moving across the line of sight. *)
Definition radar_moving : MeasurementPackage :=
  {| timestamp_ := 0; sensor_type_ := RADAR; raw_measurements_ := [1; PI / 2; 1] |}.

(** A tracking filter configured to ignore the laser. *)
Definition laser_disabled : UKF := set_use false true (tracking 1 0).

(** A tracking filter whose last record came at 2 s. *)
Definition late_filter : UKF := set_previous_timestamp 2000000 (tracking 1 0).

(** A filter after one prediction, with a standard deviation of 3 m on its
    second coordinate. *)
Definition wide_filter : UKF := predicted 9 0 1.

(** The dimensions the constructor sets up: a state of 5 entries, a 5x5
    covariance and 15 predicted sigma columns of 5 entries. *)
Definition well_shaped (u : UKF) : Prop :=
  n_x_ u = 5%nat /\ n_aug_ u = 7%nat /\ length (x_ u) = 5%nat /\
  is_matrix 5 5 (P_ u) /\ is_matrix 15 5 (Xsig_pred_ u).

(** Row [j] of the square root [L] of the augmented covariance of a filter
    whose [P_] is the identity: 1 on the diagonal of a state row, and
    [sqrt (std_yawdd_ * std_yawdd_)] with [std_yawdd_ = 1.0] in row 6. *)
Definition L_row (j : nat) : list Double.double :=
  map (fun i => if Nat.eqb i j
                then Double.sqrt (Double.mul (Double.of_int 1) (Double.of_int 1))
                else Double.of_int 0) (seq 0 7).

(** The time step between a record at 0 and a record 3 * 10^8 s later. *)
Definition long_gap_dt : Double.double := Double.delta_t 300000000000000 0.

(** The predicted yaw of the 15 sigma points after [long_gap_dt], for a
    filter with yaw 0, yaw rate 0 and the identity as [P_], which is how the
    constructor and a first laser record leave it. *)
Definition long_gap_yaws : list Double.double :=
  Double.predicted_yaws long_gap_dt
    (Double.sigma_row (Double.of_int 0) (L_row 3))
    (Double.sigma_row (Double.of_int 0) (L_row 4))
    (Double.sigma_row (Double.of_int 0) (L_row 6)).

(** ** Small tactics *)

Ltac list_eq :=
  repeat match goal with
         | |- _ :: _ = _ :: _ => f_equal
         end; try reflexivity.

Ltac unfold_tracking :=
  cbv [tracking diag5 set_P set_x set_Xsig_pred Initialize UKF_new set_is_initialized
       set_previous_timestamp print laser00
       is_initialized_ previous_timestamp_ use_laser_ use_radar_ std_a_ std_yawdd_
       std_laspx_ std_laspy_ std_radr_ std_radphi_ std_radrd_ n_x_ n_aug_ lambda_
       x_ P_ Xsig_pred_ weights_ time_us_ cout
       timestamp_ sensor_type_ raw_measurements_].

Ltac unfold_u7 :=
  cbv [u7 P7 set_P set_x set_Xsig_pred Initialize UKF_new set_is_initialized
       set_previous_timestamp print laser00
       is_initialized_ previous_timestamp_ use_laser_ use_radar_ std_a_ std_yawdd_
       std_laspx_ std_laspy_ std_radr_ std_radphi_ std_radrd_ n_x_ n_aug_ lambda_
       x_ P_ Xsig_pred_ weights_ time_us_ cout
       timestamp_ sensor_type_ raw_measurements_].

(** ** Angle normalization *)

Lemma PI_gt_3 : 3 < PI.
Proof. pose proof PI2_3_2. lra. Qed.

Lemma if_Rlt_true (A : Type) (a b : R) (x y : A) :
  a < b -> (if Rlt_dec a b then x else y) = x.
Proof. intros H. destruct (Rlt_dec a b); [reflexivity | contradiction]. Qed.

Lemma if_Rlt_false (A : Type) (a b : R) (x y : A) :
  ~ a < b -> (if Rlt_dec a b then x else y) = y.
Proof. intros H. destruct (Rlt_dec a b); [contradiction | reflexivity]. Qed.

Lemma while_above_mono (n : nat) : forall a b m,
  while_above n a = Some b -> (n <= m)%nat -> while_above m a = Some b.
Proof.
  induction n as [|n IH]; intros a b m H Hle; [discriminate|].
  destruct m as [|m]; [lia|].
  simpl in *. destruct (Rlt_dec PI a); [apply IH; [assumption|lia] | assumption].
Qed.

Lemma while_below_mono (n : nat) : forall a b m,
  while_below n a = Some b -> (n <= m)%nat -> while_below m a = Some b.
Proof.
  induction n as [|n IH]; intros a b m H Hle; [discriminate|].
  destruct m as [|m]; [lia|].
  simpl in *. destruct (Rlt_dec a (- PI)); [apply IH; [assumption|lia] | assumption].
Qed.

(** [n] subtractions bring [a] under pi: [S n] tests are enough for the first
    loop, and a value that was moved ends above -pi. *)
Lemma while_above_enough (n : nat) : forall a,
  a - 2 * PI * INR n <= PI ->
  exists b, while_above (S n) a = Some b /\ b <= PI /\ b <= a /\
            (a <= PI -> b = a) /\ (PI < a -> - PI < b).
Proof.
  pose proof PI_gt_3 as Hpi.
  induction n as [|n IH]; intros a Ha.
  - simpl in Ha. exists a. simpl.
    destruct (Rlt_dec PI a); [lra|]. repeat split; try lra; auto.
  - rewrite S_INR in Ha.
    cbn [while_above]. destruct (Rlt_dec PI a) as [Hgt|Hle].
    + destruct (IH (a - 2 * PI)) as (b & Hb & B1 & B2 & B3 & B4); [lra|].
      exists b. split; [exact Hb|]. repeat split; lra.
    + exists a. repeat split; try lra; auto.
Qed.

Lemma while_below_enough (n : nat) : forall a,
  - PI <= a + 2 * PI * INR n ->
  exists b, while_below (S n) a = Some b /\ - PI <= b /\ a <= b /\
            (- PI <= a -> b = a) /\ (a < - PI -> b < PI).
Proof.
  pose proof PI_gt_3 as Hpi.
  induction n as [|n IH]; intros a Ha.
  - simpl in Ha. exists a. simpl.
    destruct (Rlt_dec a (- PI)); [lra|]. repeat split; try lra; auto.
  - rewrite S_INR in Ha.
    cbn [while_below]. destruct (Rlt_dec a (- PI)) as [Hlt|Hge].
    + destruct (IH (a + 2 * PI)) as (b & Hb & B1 & B2 & B3 & B4); [lra|].
      exists b. split; [exact Hb|]. repeat split; lra.
    + exists a. repeat split; try lra; auto.
Qed.

(** The budget [turns a] exceeds |a| / (2 pi). *)
Lemma turns_bound (a : R) : Rabs a < 2 * PI * INR (Z.to_nat (up (Rabs a / (2 * PI)))).
Proof.
  pose proof PI_gt_3 as Hpi.
  destruct (archimed (Rabs a / (2 * PI))) as [Hup _].
  assert (H0 : 0 <= Rabs a / (2 * PI)).
  { apply Rmult_le_pos; [apply Rabs_pos|]. left. apply Rinv_0_lt_compat. lra. }
  assert (Hz : (0 <= up (Rabs a / (2 * PI)))%Z).
  { apply le_IZR. lra. }
  rewrite INR_IZR_INZ, Z2Nat.id by exact Hz.
  apply (Rmult_lt_compat_l (2 * PI)) in Hup; [|lra].
  replace (2 * PI * (Rabs a / (2 * PI))) with (Rabs a) in Hup by (field; lra).
  exact Hup.
Qed.

Lemma normalize_fuel_turns (a : R) :
  exists b, normalize_fuel (turns a) a = Some b /\ - PI <= b <= PI /\
            (- PI <= a <= PI -> b = a).
Proof.
  pose proof PI_gt_3 as Hpi. pose proof (turns_bound a) as Ht.
  unfold normalize_fuel, turns.
  set (n := Z.to_nat (up (Rabs a / (2 * PI)))) in *.
  assert (Ha : - Rabs a <= a <= Rabs a).
  { split; [pose proof (Rle_abs (- a)); rewrite Rabs_Ropp in *; lra | apply Rle_abs]. }
  destruct (while_above_enough n a) as (b & Hb & B1 & B2 & B3 & B4); [lra|].
  rewrite Hb.
  destruct (while_below_enough n b) as (c & Hc & C1 & C2 & C3 & C4).
  { destruct (Rle_lt_dec a PI) as [H1|H1]; [rewrite (B3 H1); lra | specialize (B4 H1); 
    assert (0 <= INR n) by apply pos_INR; nra]. }
  exists c. split; [exact Hc|]. split.
  - split; [exact C1|]. destruct (Rle_lt_dec (- PI) b) as [H1|H1];
      [rewrite (C3 H1); exact B1 | left; apply C4; exact H1].
  - intros [H1 H2]. rewrite C3; [apply B3; exact H2 | rewrite (B3 H2); exact H1].
Qed.

(** [angle_normalization] is what the two loops return. *)
Lemma angle_normalization_run (a : R) :
  normalize_fuel (turns a) a = Some (angle_normalization a).
Proof.
  unfold angle_normalization.
  destruct (normalize_fuel_turns a) as (b & Hb & _). rewrite Hb. reflexivity.
Qed.

Lemma angle_normalization_range (a : R) : - PI <= angle_normalization a <= PI.
Proof.
  destruct (normalize_fuel_turns a) as (b & Hb & Hr & _).
  unfold angle_normalization. rewrite Hb. exact Hr.
Qed.

Lemma angle_normalization_id (a : R) :
  - PI <= a <= PI -> angle_normalization a = a.
Proof.
  intros H. destruct (normalize_fuel_turns a) as (b & Hb & _ & Hid).
  unfold angle_normalization. rewrite Hb. apply Hid. exact H.
Qed.

Lemma normalize_fuel_mono (n m : nat) (a b : R) :
  normalize_fuel n a = Some b -> (n <= m)%nat -> normalize_fuel m a = Some b.
Proof.
  unfold normalize_fuel. intros H Hle.
  destruct (while_above n a) as [c|] eqn:Hc; [|discriminate].
  rewrite (while_above_mono n a c m Hc Hle).
  apply (while_below_mono n); assumption.
Qed.

Lemma angle_normalization_eq (n : nat) (a b : R) :
  normalize_fuel n a = Some b -> angle_normalization a = b.
Proof.
  intros H. pose proof (angle_normalization_run a) as Hrun.
  apply (normalize_fuel_mono _ (Nat.max n (turns a))) in H; [|lia].
  apply (normalize_fuel_mono _ (Nat.max n (turns a))) in Hrun; [|lia].
  congruence.
Qed.

Lemma angle_normalization_above (a : R) :
  PI < a <= 3 * PI -> angle_normalization a = a - 2 * PI.
Proof.
  intros [H1 H2]. pose proof PI_gt_3. apply (angle_normalization_eq 2).
  unfold normalize_fuel. cbn [while_above].
  rewrite (if_Rlt_true _ _ _ _ _ H1), if_Rlt_false by lra.
  cbn [while_below]. rewrite if_Rlt_false by lra. reflexivity.
Qed.

Lemma angle_normalization_below (a : R) :
  - (3 * PI) <= a < - PI -> angle_normalization a = a + 2 * PI.
Proof.
  intros [H1 H2]. pose proof PI_gt_3. apply (angle_normalization_eq 2).
  unfold normalize_fuel. cbn [while_above].
  rewrite if_Rlt_false by lra.
  cbn [while_below]. rewrite (if_Rlt_true _ _ _ _ _ H2), if_Rlt_false by lra. reflexivity.
Qed.

Lemma normalize_fuel_enough (a : R) (k : nat) :
  normalize_fuel (turns a + k) a = Some (angle_normalization a).
Proof.
  apply (normalize_fuel_mono (turns a)); [apply angle_normalization_run | lia].
Qed.

Lemma normalize_at_fuel_enough (i : nat) (v : VectorXd) (k : nat) :
  normalize_at_fuel (turns (vget v i) + k) i v = Some (normalize_at i v).
Proof.
  unfold normalize_at_fuel, normalize_at. rewrite normalize_fuel_enough. reflexivity.
Qed.

Lemma normalize_at_fuel_mono (n m i : nat) (v w : VectorXd) :
  normalize_at_fuel n i v = Some w -> (n <= m)%nat -> normalize_at_fuel m i v = Some w.
Proof.
  unfold normalize_at_fuel. intros H Hle.
  destruct (normalize_fuel n (vget v i)) as [b|] eqn:Hb; [|discriminate].
  rewrite (normalize_fuel_mono n m _ b Hb Hle). exact H.
Qed.

(** A loop over the sigma points whose body stops for each index stops as a
    whole, and returns what the fold returns. *)
Lemma for_fuel_enough (A : Type) (body_fuel : nat -> A -> nat -> option A)
    (body : A -> nat -> A) :
  (forall i, exists f, forall k acc, body_fuel (f + k)%nat acc i = Some (body acc i)) ->
  forall idx, exists f, forall k acc,
    for_fuel (body_fuel (f + k)%nat) idx acc = Some (fold_left body idx acc).
Proof.
  intros Hbody. induction idx as [|i idx (f2 & IH)].
  - exists 0%nat. reflexivity.
  - destruct (Hbody i) as (f1 & H1). exists (f1 + f2)%nat. intros k acc.
    cbn [for_fuel fold_left].
    replace (f1 + f2 + k)%nat with (f1 + (f2 + k))%nat at 1 by lia.
    rewrite H1.
    replace (f1 + f2 + k)%nat with (f2 + (f1 + k))%nat by lia.
    apply IH.
Qed.

(** ** Vectors, matrices and quadratic forms *)

Section LinearAlgebra.

Lemma length_vzip (f : R -> R -> R) (a : VectorXd) : forall b,
  length (vzip f a b) = Nat.min (length a) (length b).
Proof.
  induction a as [|x a IH]; intros [|y b]; simpl; auto.
Qed.

Lemma length_vset (i : nat) (c : R) (v : VectorXd) : length (vset i c v) = length v.
Proof.
  revert i. induction v as [|x v IH]; intros [|i]; simpl; auto.
Qed.

Lemma length_normalize_at (i : nat) (v : VectorXd) :
  length (normalize_at i v) = length v.
Proof. apply length_vset. Qed.

Lemma length_vscale (c : R) (v : VectorXd) : length (vscale c v) = length v.
Proof. apply length_map. Qed.

Lemma dot_comm (a : VectorXd) : forall b, dot a b = dot b a.
Proof.
  induction a as [|x a IH]; intros [|y b]; simpl; auto.
  rewrite IH. ring.
Qed.

Lemma dot_vscale_l (c : R) (a : VectorXd) : forall b,
  dot (vscale c a) b = c * dot a b.
Proof.
  induction a as [|x a IH]; intros [|y b]; simpl; try ring.
  unfold vscale in IH. rewrite IH. ring.
Qed.

Lemma dot_vadd_l (a : VectorXd) : forall b v,
  length a = length b -> dot (vadd a b) v = dot a v + dot b v.
Proof.
  induction a as [|x a IH]; intros [|y b] [|z v] H; simpl in *; try discriminate;
    try ring.
  unfold vadd in IH. rewrite IH by lia. ring.
Qed.

Lemma is_matrix_cons (r c : nat) (a : VectorXd) (A : MatrixXd) :
  is_matrix (S r) c (a :: A) <-> length a = c /\ is_matrix r c A.
Proof.
  unfold is_matrix. simpl. split.
  - intros [Hl Hf]. inversion Hf; subst. repeat split; auto.
  - intros (Ha & Hl & Hf). split; [lia | constructor; assumption].
Qed.

Lemma is_matrix_madd (r c : nat) (A : MatrixXd) : forall B,
  is_matrix r c A -> is_matrix r c B -> is_matrix r c (madd A B).
Proof.
  revert r. induction A as [|a A IH]; intros r [|b B] HA HB;
    try (destruct HA as [HA _], HB as [HB _]; simpl in *; subst; discriminate);
    try exact HA.
  destruct r as [|r]; [destruct HA; discriminate|].
  apply is_matrix_cons in HA, HB. destruct HA as [Ha HA], HB as [Hb HB].
  change (madd (a :: A) (b :: B)) with (vzip Rplus a b :: madd A B).
  apply is_matrix_cons. split; [rewrite length_vzip; lia | apply IH; assumption].
Qed.

Lemma is_matrix_outer (a b : VectorXd) : is_matrix (length a) (length b) (outer a b).
Proof.
  split; [apply length_map|].
  unfold outer. apply Forall_forall. intros row Hin.
  apply in_map_iff in Hin. destruct Hin as (x & <- & _). apply length_vscale.
Qed.

Lemma is_matrix_mzeros (r c : nat) : is_matrix r c (mzeros r c).
Proof.
  split; [apply repeat_length|].
  apply Forall_forall. intros row Hin. apply repeat_spec in Hin. subst.
  apply repeat_length.
Qed.

Lemma mat_vec_madd (r c : nat) (A : MatrixXd) : forall B v,
  is_matrix r c A -> is_matrix r c B ->
  mat_vec (madd A B) v = vadd (mat_vec A v) (mat_vec B v).
Proof.
  revert r. induction A as [|a A IH]; intros r [|b B] v HA HB; try reflexivity.
  destruct r as [|r]; [destruct HA; discriminate|].
  apply is_matrix_cons in HA, HB. destruct HA as [Ha HA], HB as [Hb HB].
  change (madd (a :: A) (b :: B)) with (vzip Rplus a b :: madd A B).
  cbn [mat_vec map vadd vzip]. f_equal.
  - apply dot_vadd_l. congruence.
  - apply (IH r); assumption.
Qed.

Lemma length_mat_vec (A : MatrixXd) (v : VectorXd) : length (mat_vec A v) = length A.
Proof. apply length_map. Qed.

Lemma quad_form_madd (r c : nat) (A B : MatrixXd) (v : VectorXd) :
  is_matrix r c A -> is_matrix r c B ->
  quad_form (madd A B) v = quad_form A v + quad_form B v.
Proof.
  intros HA HB. unfold quad_form.
  rewrite (mat_vec_madd r c A B v HA HB).
  rewrite (dot_comm v), dot_vadd_l, (dot_comm (mat_vec A v)), (dot_comm (mat_vec B v)).
  - reflexivity.
  - rewrite !length_mat_vec. destruct HA, HB. congruence.
Qed.

Lemma mat_vec_outer (a b v : VectorXd) :
  mat_vec (outer a b) v = vscale (dot b v) a.
Proof.
  unfold mat_vec, outer. rewrite map_map.
  transitivity (map (fun x => dot b v * x) a); [|reflexivity].
  apply map_ext. intros x. rewrite dot_vscale_l. ring.
Qed.

Lemma quad_form_outer (a b v : VectorXd) :
  quad_form (outer a b) v = dot a v * dot b v.
Proof.
  unfold quad_form. rewrite mat_vec_outer, dot_comm, dot_vscale_l. ring.
Qed.

Lemma dot_zeros_l (c : nat) : forall w, dot (zeros c) w = 0.
Proof.
  unfold zeros. induction c as [|c IH]; intros [|y w]; simpl; auto.
  rewrite IH. ring.
Qed.

Lemma quad_form_mzeros (r c : nat) (v : VectorXd) : quad_form (mzeros r c) v = 0.
Proof.
  unfold quad_form, mzeros, mat_vec. rewrite map_repeat, dot_zeros_l.
  rewrite dot_comm. apply dot_zeros_l.
Qed.

End LinearAlgebra.

Lemma vget_vscale (c : R) (v : VectorXd) (i : nat) : vget (vscale c v) i = c * vget v i.
Proof.
  unfold vget, vscale. revert i. induction v as [|x v IH]; intros [|i]; simpl;
    try ring. apply IH.
Qed.

Lemma vget_vzip_plus (a : VectorXd) : forall b i,
  length a = length b -> vget (vadd a b) i = vget a i + vget b i.
Proof.
  unfold vget, vadd. induction a as [|x a IH]; intros [|y b] i H; simpl in *;
    try discriminate.
  - destruct i; ring.
  - destruct i as [|i]; [reflexivity|]. apply IH. lia.
Qed.

Lemma mget_outer (a b : VectorXd) (i j : nat) :
  mget (outer a b) i j = vget a i * vget b j.
Proof.
  unfold mget, outer. revert i. induction a as [|x a IH]; intros [|i]; simpl.
  - destruct j; unfold vget; simpl; ring.
  - destruct j; unfold vget; simpl; ring.
  - apply (vget_vscale x b j).
  - apply IH.
Qed.

Lemma mget_madd (r c : nat) (A : MatrixXd) : forall B i j,
  is_matrix r c A -> is_matrix r c B ->
  mget (madd A B) i j = mget A i j + mget B i j.
Proof.
  unfold mget. revert r.
  induction A as [|a A IH]; intros r [|b B] i j HA HB;
    try (destruct HA as [HA _], HB as [HB _]; simpl in *; subst; discriminate).
  - simpl. destruct i, j; simpl; ring.
  - destruct r as [|r]; [destruct HA; discriminate|].
    apply is_matrix_cons in HA, HB. destruct HA as [Ha HA], HB as [Hb HB].
    change (madd (a :: A) (b :: B)) with (vzip Rplus a b :: madd A B).
    destruct i as [|i]; cbn [nth].
    + apply (vget_vzip_plus a b j). congruence.
    + apply (IH r); assumption.
Qed.

Lemma symmetric_madd (n : nat) (A B : MatrixXd) :
  is_matrix n n A -> is_matrix n n B -> symmetric A -> symmetric B ->
  symmetric (madd A B).
Proof.
  intros HA HB SA SB i j.
  rewrite !(mget_madd n n A B) by assumption. rewrite (SA i j), (SB i j). reflexivity.
Qed.

Lemma symmetric_outer (w : R) (d : VectorXd) : symmetric (outer (vscale w d) d).
Proof.
  intros i j. rewrite !mget_outer, !vget_vscale. ring.
Qed.

Lemma symmetric_mzeros (n : nat) : symmetric (mzeros n n).
Proof.
  assert (H : forall i j, mget (mzeros n n) i j = 0).
  { intros i j. unfold mget, mzeros.
    destruct (Nat.lt_ge_cases i n) as [Hi|Hi].
    - rewrite nth_repeat_lt by exact Hi. unfold zeros.
      destruct (Nat.lt_ge_cases j n) as [Hj|Hj];
        [rewrite nth_repeat_lt by exact Hj; reflexivity
        | apply nth_overflow; rewrite repeat_length; exact Hj].
    - rewrite (nth_overflow (repeat (zeros n) n) []) by (rewrite repeat_length; exact Hi).
      destruct j; reflexivity. }
  intros i j. rewrite !H. reflexivity.
Qed.

Lemma length_mzip (f : R -> R -> R) (A : MatrixXd) : forall B,
  length (mzip f A B) = Nat.min (length A) (length B).
Proof.
  induction A as [|a A IH]; intros [|b B]; simpl; auto.
Qed.

Lemma sum_over_nonneg (idx : list nat) (f : nat -> R) :
  (forall i, In i idx -> 0 <= f i) -> 0 <= sum_over idx f.
Proof.
  induction idx as [|i idx IH]; intros H; simpl; [lra|].
  pose proof (H i (or_introl eq_refl)).
  pose proof (IH (fun k Hk => H k (or_intror Hk))). lra.
Qed.

Lemma nth_map_seq (A : Type) (f : nat -> A) (d : A) (n i : nat) :
  (i < n)%nat -> nth i (map f (seq 0 n)) d = f i.
Proof.
  intros Hi. rewrite (nth_indep _ d (f 0%nat)) by (rewrite length_map, length_seq; exact Hi).
  rewrite (map_nth f (seq 0 n) 0%nat i), seq_nth by exact Hi. reflexivity.
Qed.

Lemma pow2_zero (x : R) : x ^ 2 = 0 -> x = 0.
Proof.
  intros H. simpl in H. rewrite Rmult_1_r in H.
  apply Rmult_integral in H. tauto.
Qed.

(** ** The Cholesky recurrence against a candidate factor *)

Lemma llt_row_ok_sound (rows : MatrixXd) : forall a acc rest,
  llt_row_ok rows a acc rest -> llt_row rows a acc = acc ++ rest.
Proof.
  induction rows as [|rj rows IH]; intros a acc rest H.
  - destruct a as [|aij a']; simpl in *.
    + subst. now rewrite app_nil_r.
    + destruct rest as [|d [|? ?]]; try contradiction.
      destruct H as [Hd Hsq]. f_equal. f_equal.
      apply sqrt_lem_1; [rewrite <- Hsq; nra | exact Hd | exact Hsq].
  - destruct a as [|aij a']; simpl in *.
    + subst. now rewrite app_nil_r.
    + destruct rest as [|v rest']; [contradiction|].
      destruct H as (Hnz & Hv & Hrest).
      rewrite <- Hv.
      replace (v * nth (length acc) rj 0 / nth (length acc) rj 0) with v by (field; exact Hnz).
      rewrite (IH _ _ _ Hrest). now rewrite <- app_assoc.
Qed.

Lemma llt_rows_ok_sound (A : MatrixXd) : forall done L,
  llt_rows_ok A done L -> llt_rows A done = done ++ L.
Proof.
  induction A as [|a A IH]; intros done L H; destruct L as [|l L'];
    cbn [llt_rows llt_rows_ok] in *; try contradiction.
  - now rewrite app_nil_r.
  - destruct H as [Hrow Hrest].
    rewrite (llt_row_ok_sound _ _ _ _ Hrow). cbn [app].
    etransitivity; [exact (IH _ _ Hrest)|]. now rewrite <- app_assoc.
Qed.

(** A candidate that passes the row checks is the factor [llt] computes. *)
Lemma llt_check (A L : MatrixXd) :
  llt_rows_ok A [] L -> llt A = map (pad (length A)) L.
Proof.
  intros H. unfold llt. now rewrite (llt_rows_ok_sound _ _ _ H).
Qed.

(** ** Structure of the filter functions *)

(** The covariance loop keeps the shape and the symmetry of its accumulator,
    and adds w(i) * (d_i . v)^2 to its quadratic form for each index. *)
Lemma covariance_loop_spec (n : nat) (w : VectorXd) (X : Columns) (x : VectorXd)
    (idx : list nat) :
  (forall i, In i idx -> length (deviation X x i) = n) ->
  forall P0, is_matrix n n P0 ->
    is_matrix n n (covariance_loop w X x idx P0) /\
    (symmetric P0 -> symmetric (covariance_loop w X x idx P0)) /\
    forall v, quad_form (covariance_loop w X x idx P0) v =
              quad_form P0 v
              + sum_over idx (fun i => vget w i * (dot (deviation X x i) v) ^ 2).
Proof.
  unfold covariance_loop.
  induction idx as [|i idx IH]; intros Hlen P0 HP0; cbn [fold_left sum_over fold_right].
  - split; [exact HP0|]. split; [auto|]. intros v. ring.
  - fold (deviation X x i).
    assert (Hd : length (deviation X x i) = n) by (apply Hlen; left; reflexivity).
    assert (Ho : is_matrix n n (outer (vscale (vget w i) (deviation X x i)) (deviation X x i))).
    { pose proof (is_matrix_outer (vscale (vget w i) (deviation X x i)) (deviation X x i)) as H.
      rewrite length_vscale, Hd in H. exact H. }
    destruct (IH (fun k Hk => Hlen k (or_intror Hk))
                 (madd P0 (outer (vscale (vget w i) (deviation X x i)) (deviation X x i)))
                 (is_matrix_madd n n _ _ HP0 Ho)) as (I1 & I2 & I3).
    split; [exact I1|]. split.
    + intros HS. apply I2. apply (symmetric_madd n); auto. apply symmetric_outer.
    + intros v. rewrite I3, (quad_form_madd n n) by assumption.
      rewrite quad_form_outer, dot_vscale_l. unfold sum_over. cbv beta. ring.
Qed.

Lemma length_predict_column (dt : R) (c : VectorXd) : length (predict_column dt c) = 5%nat.
Proof. reflexivity. Qed.

Lemma length_sigma_column (dt : R) (u : UKF) (i : nat) :
  (i < 2 * n_aug_ u + 1)%nat -> length (nth i (SigmaPointPrediction dt u) []) = 5%nat.
Proof.
  intros Hi. unfold SigmaPointPrediction. rewrite nth_map_seq by exact Hi.
  apply length_predict_column.
Qed.

Lemma length_mean_loop (n : nat) (w : VectorXd) (X : Columns) (idx : list nat) :
  (forall i, In i idx -> length (nth i X []) = n) ->
  forall x, length x = n ->
  length (fold_left (fun x i => vadd x (vscale (vget w i) (nth i X []))) idx x) = n.
Proof.
  induction idx as [|i idx IH]; intros H x Hx; cbn [fold_left]; [exact Hx|].
  apply IH; [intros k Hk; apply H; right; exact Hk|].
  unfold vadd. rewrite length_vzip, length_vscale, (H i (or_introl eq_refl)). lia.
Qed.

Lemma length_deviation (dt : R) (u : UKF) (i : nat) :
  n_x_ u = 5%nat -> (i < 2 * n_aug_ u + 1)%nat ->
  length (deviation (Xsig_pred_ (Prediction dt u)) (x_ (Prediction dt u)) i) = 5%nat.
Proof.
  intros Hn Hi. unfold deviation. rewrite length_normalize_at.
  unfold vsub. rewrite length_vzip.
  change (Xsig_pred_ (Prediction dt u)) with (SigmaPointPrediction dt u).
  rewrite (length_sigma_column dt u i Hi).
  change (x_ (Prediction dt u))
    with (fold_left (fun x i => vadd x (vscale (vget (weights_ u) i)
                                              (nth i (SigmaPointPrediction dt u) [])))
                    (seq 0 (2 * n_aug_ u + 1)) (zeros (n_x_ u))).
  rewrite (length_mean_loop 5); [reflexivity | |].
  - intros k Hk. apply in_seq in Hk. apply length_sigma_column. lia.
  - rewrite Hn. reflexivity.
Qed.

Lemma length_cross_correlation (u : UKF) (n_z : nat) (Zsig : Columns) (z_pred : VectorXd) :
  (forall i, (i < 2 * n_aug_ u + 1)%nat ->
             length (vsub (nth i (Xsig_pred_ u) []) (x_ u)) = n_x_ u) ->
  length (cross_correlation u n_z Zsig z_pred) = n_x_ u.
Proof.
  intros H. unfold cross_correlation.
  assert (G : forall idx Tc,
             (forall i, In i idx -> (i < 2 * n_aug_ u + 1)%nat) ->
             length Tc = n_x_ u ->
             length (fold_left
               (fun Tc i =>
                  let z_diff := normalize_at 1 (vsub (nth i Zsig []) z_pred) in
                  let x_diff := normalize_at 3 (vsub (nth i (Xsig_pred_ u) []) (x_ u)) in
                  madd Tc (outer (vscale (vget (weights_ u) i) x_diff) z_diff)) idx Tc)
             = n_x_ u).
  { induction idx as [|i idx IH]; intros Tc Hin HTc; cbn [fold_left]; [exact HTc|].
    apply IH; [intros k Hk; apply Hin; right; exact Hk|].
    unfold madd. rewrite length_mzip, HTc.
    unfold outer. rewrite length_map, length_vscale, length_normalize_at.
    rewrite (H i (Hin i (or_introl eq_refl))). lia. }
  apply G; [intros i Hi; apply in_seq in Hi; lia | apply repeat_length].
Qed.

Lemma Prediction_set_previous_timestamp (dt : R) (t : Z) (u : UKF) :
  Prediction dt (set_previous_timestamp t u) = set_previous_timestamp t (Prediction dt u).
Proof. reflexivity. Qed.

Lemma UpdateLidar_set_previous_timestamp (m : MeasurementPackage) (t : Z) (u : UKF) :
  UpdateLidar m (set_previous_timestamp t u) = set_previous_timestamp t (UpdateLidar m u).
Proof. reflexivity. Qed.

Lemma x_set_previous_timestamp (t : Z) (u : UKF) : x_ (set_previous_timestamp t u) = x_ u.
Proof. reflexivity. Qed.

(** A record that is not the first one: clock, prediction, update. *)
Lemma ProcessMeasurement_later_record (m : MeasurementPackage) (u : UKF) :
  is_initialized_ u = true ->
  ProcessMeasurement m u =
  match sensor_type_ m with
  | RADAR => UpdateRadar m
  | LASER => UpdateLidar m
  end (Prediction (delta_t_of m u) (set_previous_timestamp (timestamp_ m) u)).
Proof.
  intros H. unfold ProcessMeasurement. rewrite H. cbn [negb].
  destruct (sensor_type_ m); reflexivity.
Qed.

Lemma cout_ProcessMeasurement (m : MeasurementPackage) (u : UKF) :
  is_initialized_ u = true -> cout (ProcessMeasurement m u) = cout u.
Proof.
  intros H. rewrite (ProcessMeasurement_later_record m u H).
  destruct (sensor_type_ m); reflexivity.
Qed.

Lemma Xsig_pred_Prediction (dt : R) (u : UKF) :
  Xsig_pred_ (Prediction dt u) = SigmaPointPrediction dt u.
Proof. reflexivity. Qed.

Lemma x_Prediction (dt : R) (u : UKF) :
  x_ (Prediction dt u) = predicted_mean (set_Xsig_pred (SigmaPointPrediction dt u) u).
Proof. reflexivity. Qed.

Lemma P_Prediction (dt : R) (u : UKF) :
  P_ (Prediction dt u) =
  covariance_loop (weights_ u) (Xsig_pred_ (Prediction dt u)) (x_ (Prediction dt u))
                  (seq 0 (2 * n_aug_ u + 1)) (mzeros (n_x_ u) (n_x_ u)).
Proof. reflexivity. Qed.

Lemma SigmaPointPrediction_set_previous_timestamp (dt : R) (t : Z) (u : UKF) :
  SigmaPointPrediction dt (set_previous_timestamp t u) = SigmaPointPrediction dt u.
Proof. reflexivity. Qed.

Lemma x_set_use (l r : bool) (u : UKF) : x_ (set_use l r u) = x_ u.
Proof. reflexivity. Qed.

Lemma ProcessMeasurement_set_use (m : MeasurementPackage) (l r : bool) (u : UKF) :
  ProcessMeasurement m (set_use l r u) = set_use l r (ProcessMeasurement m u).
Proof.
  unfold ProcessMeasurement.
  change (is_initialized_ (set_use l r u)) with (is_initialized_ u).
  destruct (is_initialized_ u); cbn [negb]; [|reflexivity].
  destruct (sensor_type_ m); reflexivity.
Qed.

Lemma Xsig_pred_ProcessMeasurement (m : MeasurementPackage) (u : UKF) :
  is_initialized_ u = true ->
  Xsig_pred_ (ProcessMeasurement m u) = SigmaPointPrediction (delta_t_of m u) u.
Proof.
  intros H. rewrite (ProcessMeasurement_later_record m u H).
  destruct (sensor_type_ m); reflexivity.
Qed.

Lemma ProcessMeasurement_only_updates_estimate (m : MeasurementPackage) (u : UKF) :
  is_initialized_ u = true ->
  ProcessMeasurement m u =
  set_P (P_ (ProcessMeasurement m u))
        (set_x (x_ (ProcessMeasurement m u)) (before_update m u)).
Proof.
  intros H. rewrite (ProcessMeasurement_later_record m u H). unfold before_update.
  destruct (sensor_type_ m); reflexivity.
Qed.

(** No record changes what the constructor chose: dimensions, spread,
    weights and the two sensor switches. *)
Lemma ProcessMeasurement_keeps_configuration (m : MeasurementPackage) (u : UKF) :
  let u' := ProcessMeasurement m u in
  n_x_ u' = n_x_ u /\ n_aug_ u' = n_aug_ u /\ lambda_ u' = lambda_ u /\
  weights_ u' = weights_ u /\ use_laser_ u' = use_laser_ u /\
  use_radar_ u' = use_radar_ u.
Proof.
  cbv zeta. unfold ProcessMeasurement.
  destruct (is_initialized_ u); cbn [negb];
    [destruct (sensor_type_ m)|]; repeat split; reflexivity.
Qed.

Lemma cycle_nis_laser (m : MeasurementPackage) (u : UKF) :
  sensor_type_ m = LASER ->
  cycle_nis m u = snd (UpdateLidar_body m (before_update m u)).
Proof. intros H. unfold cycle_nis. rewrite H. reflexivity. Qed.

Lemma snd_UpdateLidar_body_set_previous_timestamp (m : MeasurementPackage) (t : Z)
    (u : UKF) :
  snd (UpdateLidar_body m (set_previous_timestamp t u)) = snd (UpdateLidar_body m u).
Proof. reflexivity. Qed.

Lemma before_update_set_use (m : MeasurementPackage) (l r : bool) (u : UKF) :
  before_update m (set_use l r u) = set_use l r (before_update m u).
Proof. reflexivity. Qed.

(** ** One cycle of the filter from [tracking p y] *)

Lemma sqrt3_sq : sqrt 3 * sqrt 3 = 3.
Proof. apply sqrt_sqrt. lra. Qed.

Lemma sqrt3_bounds : 1.7 < sqrt 3 < 1.8.
Proof.
  pose proof sqrt3_sq as H. pose proof (sqrt_pos 3) as Hp.
  split; apply Rnot_le_lt; intros Hc; nra.
Qed.

Lemma s3_pow2 : s3 ^ 2 = 3.
Proof. unfold s3. simpl. rewrite Rmult_1_r. apply sqrt3_sq. Qed.

Lemma s3_neq_0 : s3 <> 0.
Proof. pose proof sqrt3_bounds. unfold s3. lra. Qed.

Ltac s3_ring :=
  apply Rminus_diag_uniq; unfold Rdiv; ring_simplify; rewrite ?s3_pow2; lra.

Lemma add_sub_same (a b : R) : a + b - a = b.
Proof. ring. Qed.

Lemma sub_sub_same (a b : R) : a - b - a = - b.
Proof. ring. Qed.

Lemma turning_s3 : 0.001 < Rabs s3.
Proof. pose proof sqrt3_bounds. unfold s3. rewrite Rabs_right; lra. Qed.

Lemma turning_neg_s3 : 0.001 < Rabs (- s3).
Proof. rewrite Rabs_Ropp. apply turning_s3. Qed.

Lemma straight_0 : ~ 0.001 < Rabs 0.
Proof. rewrite Rabs_R0. lra. Qed.

Lemma weights_tracking (p y : R) :
  weights_ (tracking p y) =
  [- 4 / 3; 1 / 6; 1 / 6; 1 / 6; 1 / 6; 1 / 6; 1 / 6; 1 / 6;
   1 / 6; 1 / 6; 1 / 6; 1 / 6; 1 / 6; 1 / 6; 1 / 6].
Proof.
  unfold_tracking. cbv [build_weights map seq Nat.mul Nat.add INR].
  list_eq; lra.
Qed.

Lemma weights_UKF_new :
  weights_ UKF_new =
  [- 4 / 3; 1 / 6; 1 / 6; 1 / 6; 1 / 6; 1 / 6; 1 / 6; 1 / 6;
   1 / 6; 1 / 6; 1 / 6; 1 / 6; 1 / 6; 1 / 6; 1 / 6].
Proof. exact (weights_tracking 1 0). Qed.

Lemma llt_tracking (p y : R) : 0 < p ->
  llt (augmented_covariance (tracking p y)) =
  [[1; 0; 0; 0; 0; 0; 0]; [0; sqrt p; 0; 0; 0; 0; 0]; [0; 0; 1; 0; 0; 0; 0];
   [0; 0; 0; 1; 0; 0; 0]; [0; 0; 0; 0; 1; 0; 0]; [0; 0; 0; 0; 0; 0.5; 0];
   [0; 0; 0; 0; 0; 0; 1]].
Proof.
  intros Hp.
  rewrite (llt_check _ [[1]; [0; sqrt p]; [0; 0; 1]; [0; 0; 0; 1]; [0; 0; 0; 0; 1];
                        [0; 0; 0; 0; 0; 0.5]; [0; 0; 0; 0; 0; 0; 1]]).
  - reflexivity.
  - unfold augmented_covariance. unfold_tracking.
    cbv [zeros repeat map app llt_rows_ok llt_row_ok firstn length nth dot].
    pose proof (sqrt_sqrt p (Rlt_le _ _ Hp)). pose proof (sqrt_lt_R0 p Hp).
    repeat split; try lra; try nra.
Qed.

Lemma spread_tracking (p y : R) :
  sqrt (lambda_ (tracking p y) + INR (n_aug_ (tracking p y))) = s3.
Proof. unfold s3. f_equal. unfold_tracking. cbv [INR]. lra. Qed.

Lemma AugmentedSigmaPoints_tracking (p y : R) : 0 < p ->
  AugmentedSigmaPoints (tracking p y) =
  [[0; 0; 0; y; 0; 0; 0];
   [s3; 0; 0; y; 0; 0; 0]; [0; s3 * sqrt p; 0; y; 0; 0; 0]; [0; 0; s3; y; 0; 0; 0];
   [0; 0; 0; y + s3; 0; 0; 0]; [0; 0; 0; y; s3; 0; 0]; [0; 0; 0; y; 0; s3 / 2; 0];
   [0; 0; 0; y; 0; 0; s3];
   [- s3; 0; 0; y; 0; 0; 0]; [0; - (s3 * sqrt p); 0; y; 0; 0; 0]; [0; 0; - s3; y; 0; 0; 0];
   [0; 0; 0; y - s3; 0; 0; 0]; [0; 0; 0; y; - s3; 0; 0]; [0; 0; 0; y; 0; - (s3 / 2); 0];
   [0; 0; 0; y; 0; 0; - s3]].
Proof.
  intros Hp. unfold AugmentedSigmaPoints.
  rewrite (llt_tracking p y Hp), spread_tracking.
  unfold augmented_mean. unfold_tracking.
  cbv [length nth map seq app vadd vsub vzip vscale col].
  list_eq; lra.
Qed.

Lemma SigmaPointPrediction_tracking (p y dt : R) : 0 < p ->
  SigmaPointPrediction dt (tracking p y) = Xsig_tracking p y dt.
Proof.
  intros Hp. unfold SigmaPointPrediction.
  rewrite (AugmentedSigmaPoints_tracking p y Hp).
  replace (n_aug_ (tracking p y)) with 7%nat by reflexivity.
  cbv [map seq nth Nat.mul Nat.add predict_column vget Xsig_tracking].
  rewrite !(if_Rlt_true _ _ _ _ _ turning_s3), !(if_Rlt_true _ _ _ _ _ turning_neg_s3),
          !(if_Rlt_false _ _ _ _ _ straight_0).
  pose proof s3_neq_0.
  list_eq; try lra; try (field; lra).
Qed.

Lemma yaw_in_range (dt : R) : -1 <= dt <= 1 ->
  (- PI <= s3 <= PI) /\ (- PI <= s3 * dt <= PI) /\ (- PI <= s3 / 2 * (dt * dt) <= PI).
Proof.
  intros Hdt. pose proof PI_gt_3. pose proof sqrt3_bounds. unfold s3. repeat split; nra.
Qed.

(** Sigma points, mean and covariance after [Prediction dt], for |dt| <= 1 s. *)
Lemma Prediction_tracking (p y dt : R) : 0 < p -> -1 <= dt <= 1 ->
  Prediction dt (tracking p y) = predicted p y dt.
Proof.
  intros Hp Hdt. unfold Prediction.
  rewrite (SigmaPointPrediction_tracking p y dt Hp).
  unfold PredictMeanAndCovariance.
  assert (Hmean : predicted_mean (set_Xsig_pred (Xsig_tracking p y dt) (tracking p y))
                  = [0; 0; 0; y; 0]).
  { unfold predicted_mean.
    change (weights_ (set_Xsig_pred (Xsig_tracking p y dt) (tracking p y)))
      with (weights_ (tracking p y)).
    rewrite weights_tracking. unfold_tracking.
    cbv [Xsig_tracking fold_left seq Nat.mul Nat.add nth vget vadd vzip vscale map
         zeros repeat].
    list_eq; lra. }
  rewrite Hmean.
  unfold predicted. f_equal.
  unfold predicted_covariance, covariance_loop.
  change (weights_ (set_Xsig_pred (Xsig_tracking p y dt) (tracking p y)))
    with (weights_ (tracking p y)).
  rewrite weights_tracking. unfold_tracking.
  cbv [Xsig_tracking fold_left seq Nat.mul Nat.add nth vget vsub vzip zeros repeat
       normalize_at vset].
  rewrite ?Rminus_0_r, ?Rminus_diag, ?add_sub_same, ?sub_sub_same.
  destruct (yaw_in_range dt Hdt) as (Y1 & Y2 & Y3).
  rewrite !(angle_normalization_id 0), !(angle_normalization_id s3),
    !(angle_normalization_id (- s3)), !(angle_normalization_id (s3 * dt)),
    !(angle_normalization_id (- (s3 * dt))), !(angle_normalization_id (s3 / 2 * (dt * dt))),
    !(angle_normalization_id (- (s3 / 2 * (dt * dt)))) by (pose proof PI_gt_3; lra).
  cbv [madd mzip vzip outer vscale map mzeros zeros repeat P_tracking].
  pose proof (sqrt_sqrt p (Rlt_le _ _ Hp)) as Hsp.
  list_eq; try s3_ring.
Qed.

Lemma lidar_Zsig_predicted (p y dt : R) :
  lidar_Zsig (predicted p y dt) = Zsig_tracking p y dt.
Proof. reflexivity. Qed.

Lemma weights_predicted (p y dt : R) :
  weights_ (predicted p y dt) =
  [- 4 / 3; 1 / 6; 1 / 6; 1 / 6; 1 / 6; 1 / 6; 1 / 6; 1 / 6;
   1 / 6; 1 / 6; 1 / 6; 1 / 6; 1 / 6; 1 / 6; 1 / 6].
Proof. exact (weights_tracking p y). Qed.

Lemma lidar_z_pred_predicted (p y dt : R) :
  cols_mul_vec 2 (Zsig_tracking p y dt) (weights_ (predicted p y dt)) = [0; 0].
Proof.
  rewrite weights_predicted.
  cbv [Zsig_tracking cols_mul_vec vadd vzip vscale map zeros repeat].
  list_eq; lra.
Qed.

Lemma lidar_S_predicted (p y dt : R) : 0 < p ->
  lidar_S (predicted p y dt) (Zsig_tracking p y dt) [0; 0] = S_tracking p y dt.
Proof.
  intros Hp. unfold lidar_S. rewrite weights_predicted.
  unfold predicted. unfold_tracking.
  cbv [Zsig_tracking S_tracking fold_left seq Nat.mul Nat.add nth vget vsub vzip
       madd mzip outer vscale map mzeros zeros repeat].
  pose proof (sqrt_sqrt p (Rlt_le _ _ Hp)) as Hsp.
  list_eq; s3_ring.
Qed.

Lemma cross_correlation_predicted (p y dt zd : R) :
  -1 <= dt <= 1 ->
  angle_normalization (s3 * sqrt p) = zd ->
  angle_normalization (- (s3 * sqrt p)) = - zd ->
  cross_correlation (predicted p y dt) 2 (Zsig_tracking p y dt) [0; 0]
  = Tc_tracking p y dt zd.
Proof.
  intros Hdt Hzd Hzd'. unfold cross_correlation. rewrite weights_predicted.
  unfold predicted. unfold_tracking.
  cbv [Zsig_tracking Xsig_tracking fold_left seq Nat.mul Nat.add nth vget vsub vzip
       zeros repeat normalize_at vset].
  rewrite ?Rminus_0_r, ?Rminus_diag, ?add_sub_same, ?sub_sub_same.
  rewrite Hzd, Hzd'.
  destruct (yaw_in_range dt Hdt) as (Y1 & Y2 & Y3).
  assert (Z1 : - PI <= s3 * dt * sin y <= PI).
  { pose proof (SIN_bound y). pose proof PI_gt_3. pose proof sqrt3_bounds. unfold s3.
    assert (-1 <= dt * sin y <= 1) by (split; nra). split; nra. }
  assert (Z2 : - PI <= s3 / 4 * (dt * dt) * sin y <= PI).
  { pose proof (SIN_bound y). pose proof PI_gt_3. pose proof sqrt3_bounds. unfold s3.
    assert (0 <= dt * dt <= 1) by (split; nra).
    assert (-1 <= dt * dt * sin y <= 1) by (split; nra). split; nra. }
  rewrite !(angle_normalization_id 0), !(angle_normalization_id s3),
    !(angle_normalization_id (- s3)), !(angle_normalization_id (s3 * dt)),
    !(angle_normalization_id (- (s3 * dt))), !(angle_normalization_id (s3 / 2 * (dt * dt))),
    !(angle_normalization_id (- (s3 / 2 * (dt * dt)))),
    !(angle_normalization_id (s3 * dt * sin y)),
    !(angle_normalization_id (- (s3 * dt * sin y))),
    !(angle_normalization_id (s3 / 4 * (dt * dt) * sin y)),
    !(angle_normalization_id (- (s3 / 4 * (dt * dt) * sin y)))
    by (pose proof PI_gt_3; lra).
  cbv [madd mzip vzip outer vscale map mzeros zeros repeat Tc_tracking].
  list_eq; s3_ring.
Qed.

(** The laser update on the predicted filter, with [zd] what the angle loops
    make of the residual [s3 * sqrt p] of sigma point 2. *)
Lemma UpdateLidar_predicted (p y dt zd : R) (meas_package : MeasurementPackage) :
  0 < p -> -1 <= dt <= 1 ->
  angle_normalization (s3 * sqrt p) = zd ->
  angle_normalization (- (s3 * sqrt p)) = - zd ->
  let K := mmul 2 (Tc_tracking p y dt zd) (inverse (S_tracking p y dt)) in
  let z_diff := vsub (raw_measurements_ meas_package) [0; 0] in
  UpdateLidar_body meas_package (predicted p y dt) =
  (set_P (msub (P_tracking p y dt) (mul_transpose (mmul 2 K (S_tracking p y dt)) K))
         (set_x (vadd [0; 0; 0; y; 0] (mat_vec K z_diff)) (predicted p y dt)),
   quad_form (inverse (S_tracking p y dt)) z_diff).
Proof.
  intros Hp Hdt Hzd Hzd' K z_diff. unfold UpdateLidar_body.
  rewrite lidar_Zsig_predicted, lidar_z_pred_predicted, (lidar_S_predicted p y dt Hp).
  unfold UpdateState, kalman_gain.
  rewrite (cross_correlation_predicted p y dt zd Hdt Hzd Hzd').
  reflexivity.
Qed.

Lemma angle_s3_sqrt1 : angle_normalization (s3 * sqrt 1) = s3 * sqrt 1.
Proof.
  apply angle_normalization_id. rewrite sqrt_1.
  pose proof sqrt3_bounds. pose proof PI_gt_3. unfold s3. lra.
Qed.

Lemma angle_neg_s3_sqrt1 : angle_normalization (- (s3 * sqrt 1)) = - (s3 * sqrt 1).
Proof.
  apply angle_normalization_id. rewrite sqrt_1.
  pose proof sqrt3_bounds. pose proof PI_gt_3. unfold s3. lra.
Qed.

Lemma delta_t_1s (y : R) : delta_t_of laser_at_1s (tracking 1 y) = 1.
Proof. unfold delta_t_of. unfold_tracking. cbv [laser_at_1s]. simpl Z.sub. lra. Qed.

Lemma before_update_tracking (y : R) :
  before_update laser_at_1s (tracking 1 y) = set_previous_timestamp 1000000 (predicted 1 y 1).
Proof.
  unfold before_update. rewrite delta_t_1s.
  change (timestamp_ laser_at_1s) with 1000000%Z.
  rewrite Prediction_set_previous_timestamp, Prediction_tracking by lra.
  reflexivity.
Qed.

Lemma ProcessMeasurement_tracking (y : R) :
  ProcessMeasurement laser_at_1s (tracking 1 y) =
  set_previous_timestamp 1000000 (UpdateLidar laser_at_1s (predicted 1 y 1)).
Proof.
  rewrite ProcessMeasurement_later_record by reflexivity.
  change (sensor_type_ laser_at_1s) with LASER. cbv iota.
  fold (before_update laser_at_1s (tracking 1 y)).
  rewrite before_update_tracking.
  apply UpdateLidar_set_previous_timestamp.
Qed.

(** The state after the laser record (1, 0) that comes one second after the
    start, for a filter that starts with heading [y]. *)
Lemma x_after_update (y : R) :
  x_ (ProcessMeasurement laser_at_1s (tracking 1 y)) =
  vadd [0; 0; 0; y; 0]
       (mat_vec (mmul 2 (Tc_tracking 1 y 1 (s3 * sqrt 1)) (inverse (S_tracking 1 y 1)))
                (vsub [1; 0] [0; 0])).
Proof.
  rewrite ProcessMeasurement_tracking, x_set_previous_timestamp.
  unfold UpdateLidar.
  rewrite (UpdateLidar_predicted 1 y 1 (s3 * sqrt 1) laser_at_1s)
    by (try lra; auto using angle_s3_sqrt1, angle_neg_s3_sqrt1).
  reflexivity.
Qed.

Lemma x_after_update_0 :
  x_ (ProcessMeasurement laser_at_1s (tracking 1 0)) = [275 / 278; 0; 75 / 139; 0; 0].
Proof.
  rewrite x_after_update.
  cbv [Tc_tracking S_tracking inverse det2 mmul mul_transpose transpose col map seq nth
       dot mat_vec vsub vadd vzip].
  rewrite cos_0, sin_0, sqrt_1.
  list_eq; s3_ring.
Qed.

(** [tracking 1 0] is the filter after a first laser record at the origin. *)
Lemma ProcessMeasurement_laser00 : ProcessMeasurement laser00 UKF_new = tracking 1 0.
Proof. reflexivity. Qed.

Lemma ProcessMeasurement_radar_first :
  ProcessMeasurement radar_first UKF_new = tracking 1 5.
Proof.
  cbv [ProcessMeasurement UKF_new is_initialized_ negb Initialize radar_first tracking
       laser00 diag5 sensor_type_ raw_measurements_ timestamp_ print set_x set_P
       set_previous_timestamp set_is_initialized
       previous_timestamp_ use_laser_ use_radar_ std_a_ std_yawdd_
       std_laspx_ std_laspy_ std_radr_ std_radphi_ std_radrd_ n_x_ n_aug_ lambda_
       x_ P_ Xsig_pred_ weights_ time_us_ cout
       zeros repeat length vset vget nth identity map seq Nat.eqb app].
  rewrite cos_PI2, sin_PI2.
  f_equal. list_eq; lra.
Qed.

(** ** One prediction from [u7] *)

Lemma a7_pos : 0 < a7.
Proof.
  unfold a7. apply Rdiv_lt_0_compat; [apply PI_RGT_0|].
  pose proof sqrt3_bounds. unfold s3. lra.
Qed.

Lemma s3_a7 : s3 * a7 = PI.
Proof. unfold a7. field. apply s3_neq_0. Qed.

Lemma llt_u7 :
  llt (augmented_covariance u7) =
  [[1; 0; 0; 0; 0; 0; 0]; [0; 1; 0; 0; 0; 0; 0]; [0; 0; 1; 0; 0; 0; 0];
   [a7; a7; a7; a7; 0; 0; 0]; [0; 0; 0; 0; 0.0005; 0; 0]; [0; 0; 0; 0; 0; 0.5; 0];
   [0; 0; 0; 0; 0; 0; 1]].
Proof.
  rewrite (llt_check _ [[1]; [0; 1]; [0; 0; 1]; [a7; a7; a7; a7]; [0; 0; 0; 0; 0.0005];
                        [0; 0; 0; 0; 0; 0.5]; [0; 0; 0; 0; 0; 0; 1]]).
  - reflexivity.
  - unfold augmented_covariance. unfold_u7.
    cbv [zeros repeat map app llt_rows_ok llt_row_ok firstn length nth dot].
    pose proof a7_pos.
    repeat split; try lra; try nra.
Qed.

Lemma AugmentedSigmaPoints_u7 :
  AugmentedSigmaPoints u7 =
  [[0; 0; 2; 0; 0; 0; 0];
   [s3; 0; 2; PI; 0; 0; 0]; [0; s3; 2; PI; 0; 0; 0]; [0; 0; 2 + s3; PI; 0; 0; 0];
   [0; 0; 2; PI; 0; 0; 0]; [0; 0; 2; 0; s3 * 0.0005; 0; 0]; [0; 0; 2; 0; 0; s3 / 2; 0];
   [0; 0; 2; 0; 0; 0; s3];
   [- s3; 0; 2; - PI; 0; 0; 0]; [0; - s3; 2; - PI; 0; 0; 0]; [0; 0; 2 - s3; - PI; 0; 0; 0];
   [0; 0; 2; - PI; 0; 0; 0]; [0; 0; 2; 0; - (s3 * 0.0005); 0; 0];
   [0; 0; 2; 0; 0; - (s3 / 2); 0]; [0; 0; 2; 0; 0; 0; - s3]].
Proof.
  unfold AugmentedSigmaPoints. rewrite llt_u7.
  replace (sqrt (lambda_ u7 + INR (n_aug_ u7))) with s3
    by (unfold s3; f_equal; unfold_u7; cbv [INR]; lra).
  unfold augmented_mean. unfold_u7.
  cbv [length nth map seq app vadd vsub vzip vscale col].
  pose proof s3_a7.
  list_eq; lra.
Qed.

Lemma straight_small : ~ 0.001 < Rabs (s3 * 0.0005).
Proof.
  pose proof sqrt3_bounds. unfold s3. rewrite Rabs_right; lra.
Qed.

Lemma straight_small_neg : ~ 0.001 < Rabs (- (s3 * 0.0005)).
Proof. rewrite Rabs_Ropp. apply straight_small. Qed.

Lemma SigmaPointPrediction_u7 : SigmaPointPrediction 1 u7 = X7.
Proof.
  unfold SigmaPointPrediction. rewrite AugmentedSigmaPoints_u7.
  replace (n_aug_ u7) with 7%nat by reflexivity.
  cbv [map seq nth Nat.mul Nat.add predict_column vget X7].
  rewrite !(if_Rlt_false _ _ _ _ _ straight_small),
          !(if_Rlt_false _ _ _ _ _ straight_small_neg),
          !(if_Rlt_false _ _ _ _ _ straight_0).
  rewrite ?sin_neg, ?cos_neg, ?sin_0, ?cos_0, ?sin_PI, ?cos_PI.
  list_eq; lra.
Qed.

Lemma weights_u7 :
  weights_ u7 =
  [- 4 / 3; 1 / 6; 1 / 6; 1 / 6; 1 / 6; 1 / 6; 1 / 6; 1 / 6;
   1 / 6; 1 / 6; 1 / 6; 1 / 6; 1 / 6; 1 / 6; 1 / 6].
Proof. exact weights_UKF_new. Qed.

Lemma predicted_mean_u7 : x_ (Prediction 1 u7) = [- 10 / 3; 0; 2; 0; 0].
Proof.
  rewrite x_Prediction, SigmaPointPrediction_u7. unfold predicted_mean.
  change (weights_ (set_Xsig_pred X7 u7)) with (weights_ u7).
  rewrite weights_u7. unfold_u7.
  cbv [X7 fold_left seq Nat.mul Nat.add nth vget vadd vzip vscale map zeros repeat].
  list_eq; lra.
Qed.

(** The variance of the first coordinate after [Prediction 1] from [u7]. *)
Lemma quad_form_predicted_u7 :
  quad_form (P_ (Prediction 1 u7)) [1; 0; 0; 0; 0] = - 727 / 144.
Proof.
  assert (Hlen : forall i, In i (seq 0 (2 * n_aug_ u7 + 1)) ->
     length (deviation (Xsig_pred_ (Prediction 1 u7)) (x_ (Prediction 1 u7)) i) = 5%nat).
  { intros i Hi. apply in_seq in Hi. apply length_deviation; [reflexivity | lia]. }
  rewrite P_Prediction.
  replace (n_x_ u7) with 5%nat by reflexivity.
  destruct (covariance_loop_spec 5 (weights_ u7) (Xsig_pred_ (Prediction 1 u7))
              (x_ (Prediction 1 u7)) _ Hlen (mzeros 5 5) (is_matrix_mzeros 5 5))
    as (_ & _ & I3).
  rewrite I3, quad_form_mzeros, predicted_mean_u7, weights_u7, Xsig_pred_Prediction,
    SigmaPointPrediction_u7.
  replace (n_aug_ u7) with 7%nat by reflexivity.
  cbv [X7 sum_over fold_right seq Nat.mul Nat.add deviation normalize_at vset vsub vzip
       vget nth dot].
  s3_ring.
Qed.

Lemma symmetric_P7 : symmetric P7.
Proof.
  intros i j. unfold mget, P7.
  do 6 (destruct i as [|i]; [do 6 (destruct j as [|j]; [reflexivity|]); destruct j; reflexivity|]).
  destruct i; do 6 (destruct j as [|j]; [reflexivity|]); destruct j; reflexivity.
Qed.

Lemma positive_definite_P7 : positive_definite 5 P7.
Proof.
  intros v Hlen Hnz.
  destruct v as [|v0 [|v1 [|v2 [|v3 [|v4 [|? ?]]]]]]; try discriminate.
  cbv [quad_form P7 mat_vec map dot].
  pose proof a7_pos as Ha.
  assert (Hq : v0 * (1 * v0 + (0 * v1 + (0 * v2 + (a7 * v3 + (0 * v4 + 0))))) +
               (v1 * (0 * v0 + (1 * v1 + (0 * v2 + (a7 * v3 + (0 * v4 + 0))))) +
                (v2 * (0 * v0 + (0 * v1 + (1 * v2 + (a7 * v3 + (0 * v4 + 0))))) +
                 (v3 * (a7 * v0 + (a7 * v1 + (a7 * v2 + (4 * a7 * a7 * v3 + (0 * v4 + 0))))) +
                  (v4 * (0 * v0 + (0 * v1 + (0 * v2 + (0 * v3 + (0.0005 * 0.0005 * v4 + 0))))) + 0))))
               = (v0 + a7 * v3) ^ 2 + (v1 + a7 * v3) ^ 2 + (v2 + a7 * v3) ^ 2
                 + (a7 * v3) ^ 2 + (0.0005 * v4) ^ 2) by ring.
  rewrite Hq. clear Hq.
  pose proof (pow2_ge_0 (v0 + a7 * v3)). pose proof (pow2_ge_0 (v1 + a7 * v3)).
  pose proof (pow2_ge_0 (v2 + a7 * v3)). pose proof (pow2_ge_0 (a7 * v3)).
  pose proof (pow2_ge_0 (0.0005 * v4)).
  apply Rnot_le_lt. intros Hle.
  assert (E3 : (a7 * v3) ^ 2 = 0) by lra.
  assert (E4 : (0.0005 * v4) ^ 2 = 0) by lra.
  assert (E0 : (v0 + a7 * v3) ^ 2 = 0) by lra.
  assert (E1 : (v1 + a7 * v3) ^ 2 = 0) by lra.
  assert (E2 : (v2 + a7 * v3) ^ 2 = 0) by lra.
  apply pow2_zero in E3, E4, E0, E1, E2.
  assert (v3 = 0) by nra. assert (v4 = 0) by lra.
  apply Hnz. cbv [zeros repeat]. list_eq; nra.
Qed.

(** * The claims *)

(** ** C1: records of a disabled sensor *)

(** C1 (the code departs from its own comments on [use_laser_] and
    [use_radar_]).  The two flags are set by the constructor and read
    nowhere: [ProcessMeasurement] gives the same filter whatever they hold.
    With the laser disabled, a laser record that arrives one second after
    initialization still corrects the state: [Prediction] alone leaves it at
    the origin, [ProcessMeasurement] moves it most of the way to the measured
    position (1, 0). *)
Theorem disabled_laser_record_still_updates :
  (forall m l r u,
      ProcessMeasurement m (set_use l r u) = set_use l r (ProcessMeasurement m u)) /\
  laser_disabled = set_use false true (ProcessMeasurement laser00 UKF_new) /\
  use_laser_ laser_disabled = false /\
  is_initialized_ laser_disabled = true /\
  sensor_type_ laser_at_1s = LASER /\
  x_ (before_update laser_at_1s laser_disabled) = [0; 0; 0; 0; 0] /\
  x_ (ProcessMeasurement laser_at_1s laser_disabled) = [275 / 278; 0; 75 / 139; 0; 0].
Proof.
  split; [exact ProcessMeasurement_set_use|].
  repeat (split; [reflexivity|]).
  unfold laser_disabled. split.
  - rewrite before_update_set_use, x_set_use, before_update_tracking,
      x_set_previous_timestamp.
    reflexivity.
  - rewrite ProcessMeasurement_set_use, x_set_use. exact x_after_update_0.
Qed.

(** ** C2: the heading after an update *)

(** C2, counterexample.  A first radar record (0, pi/2, 5) leaves 5 in the
    heading slot; the laser record that follows is predicted and updated,
    and the stored heading is still 5, outside (-pi, pi]. *)
Lemma yaw_left_outside_range :
  let u := ProcessMeasurement laser_at_1s (ProcessMeasurement radar_first UKF_new) in
  vget (x_ u) 3 = 5 /\ ~ (- PI < vget (x_ u) 3 <= PI).
Proof.
  cbv zeta. rewrite ProcessMeasurement_radar_first.
  assert (H : vget (x_ (ProcessMeasurement laser_at_1s (tracking 1 5))) 3 = 5).
  { rewrite x_after_update.
    cbv [Tc_tracking S_tracking inverse det2 mmul mul_transpose transpose col map seq nth
         dot mat_vec vsub vadd vzip vget].
    unfold Rdiv. ring. }
  rewrite H. split; [reflexivity|]. pose proof PI_4. lra.
Qed.

(** C2, as the code has it.  [UpdateState] stores x_ + K * (z - z_pred) as
    computed: the heading it stores is the predicted heading plus row 3 of
    the gain applied to the residual, with no normalization. *)
Theorem UpdateState_stores_unwrapped_yaw (n_z : nat) (z : VectorXd) (Zsig : Columns)
    (S : MatrixXd) (z_pred : VectorXd) (u : UKF) :
  n_x_ u = 5%nat -> length (x_ u) = 5%nat ->
  (forall i, (i < 2 * n_aug_ u + 1)%nat -> length (nth i (Xsig_pred_ u) []) = 5%nat) ->
  vget (x_ (snd (UpdateState n_z z Zsig S z_pred u))) 3 =
  vget (x_ u) 3 + dot (nth 3 (kalman_gain u n_z Zsig S z_pred) []) (vsub z z_pred).
Proof.
  intros Hn Hx HX.
  change (x_ (snd (UpdateState n_z z Zsig S z_pred u)))
    with (vadd (x_ u) (mat_vec (kalman_gain u n_z Zsig S z_pred) (vsub z z_pred))).
  rewrite vget_vzip_plus.
  - f_equal. unfold vget, mat_vec.
    change 0 with (dot [] (vsub z z_pred)) at 1.
    apply (map_nth (fun r => dot r (vsub z z_pred))).
  - rewrite length_mat_vec. unfold kalman_gain, mmul, mul_transpose.
    rewrite length_map, length_cross_correlation; [congruence|].
    intros i Hi. unfold vsub. rewrite length_vzip, (HX i Hi), Hx, Hn. reflexivity.
Qed.

Lemma UpdateState_stores_unwrapped_yaw_witness :
  n_x_ (predicted 1 5 1) = 5%nat /\ length (x_ (predicted 1 5 1)) = 5%nat /\
  vget (x_ (snd (UpdateState 2 [1; 0] (Zsig_tracking 1 5 1) (S_tracking 1 5 1) [0; 0]
                             (predicted 1 5 1)))) 3 =
  vget (x_ (predicted 1 5 1)) 3
  + dot (nth 3 (kalman_gain (predicted 1 5 1) 2 (Zsig_tracking 1 5 1) (S_tracking 1 5 1)
                            [0; 0]) [])
        (vsub [1; 0] [0; 0]).
Proof.
  split; [reflexivity|]. split; [reflexivity|].
  apply UpdateState_stores_unwrapped_yaw; [reflexivity | reflexivity |].
  intros i Hi. change (2 * n_aug_ (predicted 1 5 1) + 1)%nat with 15%nat in Hi.
  do 15 (destruct i as [|i]; [reflexivity|]). lia.
Defined.

(** ** C3: the residual of the position sensor *)

Lemma sqrt_9 : sqrt 9 = 3.
Proof. apply sqrt_lem_1; lra. Qed.

Lemma angle_wide : angle_normalization (s3 * sqrt 9) = s3 * sqrt 9 - 2 * PI.
Proof.
  apply angle_normalization_above. rewrite sqrt_9.
  pose proof sqrt3_bounds. pose proof PI_gt_3. pose proof PI_4. unfold s3. lra.
Qed.

Lemma angle_wide_neg : angle_normalization (- (s3 * sqrt 9)) = - (s3 * sqrt 9 - 2 * PI).
Proof.
  rewrite angle_normalization_below; [ring|]. rewrite sqrt_9.
  pose proof sqrt3_bounds. pose proof PI_gt_3. pose proof PI_4. unfold s3. lra.
Qed.

Lemma cross_correlation_plain_predicted (p y dt : R) :
  0 < p -> -1 <= dt <= 1 ->
  cross_correlation_plain (predicted p y dt) 2 (Zsig_tracking p y dt) [0; 0]
  = Tc_tracking p y dt (s3 * sqrt p).
Proof.
  intros Hp Hdt. unfold cross_correlation_plain. rewrite weights_predicted.
  unfold predicted. unfold_tracking.
  cbv [Zsig_tracking Xsig_tracking fold_left seq Nat.mul Nat.add nth vget vsub vzip
       zeros repeat normalize_at vset].
  rewrite ?Rminus_0_r, ?Rminus_diag, ?add_sub_same, ?sub_sub_same.
  destruct (yaw_in_range dt Hdt) as (Y1 & Y2 & Y3).
  rewrite !(angle_normalization_id 0), !(angle_normalization_id s3),
    !(angle_normalization_id (- s3)), !(angle_normalization_id (s3 * dt)),
    !(angle_normalization_id (- (s3 * dt))), !(angle_normalization_id (s3 / 2 * (dt * dt))),
    !(angle_normalization_id (- (s3 / 2 * (dt * dt))))
    by (pose proof PI_gt_3; lra).
  cbv [madd mzip vzip outer vscale map mzeros zeros repeat Tc_tracking].
  list_eq; s3_ring.
Qed.

(** C3 (the code departs from the plain residual in the shared update).  The
    innovation-covariance loop of [UpdateLidar] subtracts plainly, but the
    cross-correlation loop of [UpdateState] runs the angle loops on entry 1
    of every residual, which for the laser is the second coordinate in
    metres.  On a filter one prediction after a start with variance 9 on
    that coordinate, sigma point 2 lies 3*sqrt 3 m from the mean: the loop
    turns its residual into 3*sqrt 3 - 2*pi, and the cross-correlation entry
    comes out negative where plain subtraction gives 9. *)
Theorem lidar_cross_correlation_wraps_position :
  wide_filter = Prediction 1 (tracking 9 0) /\
  let Zsig := lidar_Zsig wide_filter in
  let z_pred := cols_mul_vec 2 Zsig (weights_ wide_filter) in
  vsub (nth 2 Zsig []) z_pred = [0; 3 * s3] /\
  normalize_at 1 (vsub (nth 2 Zsig []) z_pred) = [0; 3 * s3 - 2 * PI] /\
  mget (lidar_S wide_filter Zsig z_pred) 1 1 = 9 + 0.15 * 0.15 /\
  mget (cross_correlation_plain wide_filter 2 Zsig z_pred) 1 1 = 9 /\
  mget (cross_correlation wide_filter 2 Zsig z_pred) 1 1 = 9 - 2 * s3 * PI /\
  9 - 2 * s3 * PI < 0.
Proof.
  unfold wide_filter. split; [symmetry; apply Prediction_tracking; lra|].
  cbv zeta. rewrite lidar_Zsig_predicted, lidar_z_pred_predicted.
  assert (Hres : vsub (nth 2 (Zsig_tracking 9 0 1) []) [0; 0] = [0; 3 * s3]).
  { cbv [Zsig_tracking nth vsub vzip]. rewrite sqrt_9. list_eq; lra. }
  split; [exact Hres|]. split.
  { rewrite Hres. cbv [normalize_at vset vget nth].
    replace (3 * s3) with (s3 * sqrt 9) by (rewrite sqrt_9; ring).
    rewrite angle_wide. reflexivity. }
  split.
  { rewrite lidar_S_predicted by lra. cbv [S_tracking mget nth]. rewrite sin_0. lra. }
  split.
  { rewrite cross_correlation_plain_predicted by lra.
    cbv [Tc_tracking mget nth]. rewrite sin_0, sqrt_9. s3_ring. }
  split.
  { rewrite (cross_correlation_predicted 9 0 1 (s3 * sqrt 9 - 2 * PI))
      by (try lra; auto using angle_wide, angle_wide_neg).
    cbv [Tc_tracking mget nth]. rewrite sin_0, sqrt_9. s3_ring. }
  pose proof sqrt3_bounds. pose proof PI_gt_3. unfold s3. nra.
Qed.

(** ** C4: records that do not advance the clock *)

(** C4, counterexample.  The filter last heard at 2 s receives a laser
    record stamped 1 s: the time step is -1 s, the motion model is run with
    it (the sigma point with speed sqrt 3 is moved backwards), nothing is
    written on [cout], and the estimate is not left as it was. *)
Lemma nonmonotonic_record_is_processed :
  late_filter = ProcessMeasurement
                  {| timestamp_ := 2000000; sensor_type_ := LASER;
                     raw_measurements_ := [0; 0] |} UKF_new /\
  is_initialized_ late_filter = true /\
  delta_t_of laser_at_1s late_filter = -1 /\
  delta_t_of laser_at_1s late_filter <= 0 /\
  Xsig_pred_ (ProcessMeasurement laser_at_1s late_filter)
  = SigmaPointPrediction (-1) late_filter /\
  nth 3 (Xsig_pred_ (ProcessMeasurement laser_at_1s late_filter)) [] = [- s3; 0; s3; 0; 0] /\
  cout (ProcessMeasurement laser_at_1s late_filter) = cout late_filter /\
  ~ rejects laser_at_1s late_filter.
Proof.
  assert (Hdt : delta_t_of laser_at_1s late_filter = -1).
  { unfold delta_t_of, late_filter.
    change (timestamp_ laser_at_1s - previous_timestamp_ (set_previous_timestamp 2000000 (tracking 1 0)))%Z
      with (1000000 - 2000000)%Z.
    simpl Z.sub. lra. }
  assert (HX : Xsig_pred_ (ProcessMeasurement laser_at_1s late_filter) = Xsig_tracking 1 0 (-1)).
  { rewrite Xsig_pred_ProcessMeasurement by reflexivity. rewrite Hdt.
    unfold late_filter. rewrite SigmaPointPrediction_set_previous_timestamp.
    apply SigmaPointPrediction_tracking. lra. }
  split; [reflexivity|].
  split; [reflexivity|]. split; [exact Hdt|]. split; [rewrite Hdt; lra|]. split.
  { rewrite Xsig_pred_ProcessMeasurement by reflexivity. rewrite Hdt. reflexivity. }
  split.
  { rewrite HX. cbv [Xsig_tracking nth]. rewrite cos_0, sin_0. list_eq; lra. }
  split; [apply cout_ProcessMeasurement; reflexivity|].
  intros (H & _). rewrite HX in H.
  apply (f_equal (fun X => vget (nth 1 X []) 0)) in H.
  change (vget (nth 1 (Xsig_pred_ late_filter) []) 0) with 0 in H.
  cbv [Xsig_tracking nth vget] in H. exact (s3_neq_0 H).
Qed.

(** C4, as the code has it.  Whatever the sign of the time step, a later
    record sets [previous_timestamp_], runs [Prediction] with
    (t - t_prev) / 10^6 and then the update of its sensor; nothing is
    signalled. *)
Theorem later_record_is_predicted_and_updated (m : MeasurementPackage) (u : UKF) :
  is_initialized_ u = true ->
  ProcessMeasurement m u =
  match sensor_type_ m with
  | RADAR => UpdateRadar m
  | LASER => UpdateLidar m
  end (Prediction (delta_t_of m u) (set_previous_timestamp (timestamp_ m) u)) /\
  previous_timestamp_ (ProcessMeasurement m u) = timestamp_ m /\
  cout (ProcessMeasurement m u) = cout u.
Proof.
  intros H. split; [exact (ProcessMeasurement_later_record m u H)|].
  split; [|exact (cout_ProcessMeasurement m u H)].
  rewrite (ProcessMeasurement_later_record m u H).
  destruct (sensor_type_ m); reflexivity.
Qed.

Lemma later_record_is_predicted_and_updated_witness :
  is_initialized_ late_filter = true /\
  ProcessMeasurement laser_at_1s late_filter =
  UpdateLidar laser_at_1s
    (Prediction (delta_t_of laser_at_1s late_filter)
                (set_previous_timestamp 1000000 late_filter)) /\
  previous_timestamp_ (ProcessMeasurement laser_at_1s late_filter) = 1000000%Z /\
  cout (ProcessMeasurement laser_at_1s late_filter) = cout late_filter.
Proof.
  split; [reflexivity|].
  apply (later_record_is_predicted_and_updated laser_at_1s late_filter). reflexivity.
Defined.

(** ** C5: initialization from a radar record *)

(** C5 (the code departs from the state layout it documents and from its
    laser branch).  On a first radar record (rho, phi, rho_dot) the state is
    (rho cos phi, rho sin phi, rho_dot cos phi, rho_dot sin phi, 0): the
    heading slot x(3) receives rho_dot sin phi, not 0.  For the record
    (1, pi/2, 1) the stored heading is 1. *)
Theorem Initialize_radar_fills_yaw_slot :
  (forall t rho phi rho_dot,
      x_ (ProcessMeasurement
            {| timestamp_ := t; sensor_type_ := RADAR;
               raw_measurements_ := [rho; phi; rho_dot] |} UKF_new)
      = [rho * cos phi; rho * sin phi; rho_dot * cos phi; rho_dot * sin phi; 0]) /\
  x_ (ProcessMeasurement radar_moving UKF_new) = [0; 1; 0; 1; 0] /\
  vget (x_ (ProcessMeasurement radar_moving UKF_new)) 3 <> 0.
Proof.
  assert (G : forall t rho phi rho_dot,
      x_ (ProcessMeasurement
            {| timestamp_ := t; sensor_type_ := RADAR;
               raw_measurements_ := [rho; phi; rho_dot] |} UKF_new)
      = [rho * cos phi; rho * sin phi; rho_dot * cos phi; rho_dot * sin phi; 0])
    by reflexivity.
  split; [exact G|].
  unfold radar_moving. rewrite G, cos_PI2, sin_PI2.
  split; [list_eq; lra | cbv [vget nth]; lra].
Qed.

(** ** C6: the innovation of the radar update *)

(** C6 (the code departs from the wrap it applies to every other bearing
    residual).  The residual that [UpdateState] multiplies by the gain and
    returns is the plain difference z - z_pred.  For a radar record with
    bearing 3.1 against a predicted bearing -3.1 its bearing entry is 6.2,
    above pi, and this is the vector the gain is applied to. *)
Theorem UpdateState_innovation_is_plain_difference :
  (forall n_z z Zsig S z_pred u,
      fst (UpdateState n_z z Zsig S z_pred u) = vsub z z_pred) /\
  forall Zsig S u,
    let r := UpdateState 3 [1; 3.1; 0] Zsig S [1; -3.1; 0] u in
    fst r = [0; 6.2; 0] /\
    PI < vget (fst r) 1 /\
    x_ (snd r) = vadd (x_ u) (mat_vec (kalman_gain u 3 Zsig S [1; -3.1; 0]) [0; 6.2; 0]).
Proof.
  split; [reflexivity|]. intros Zsig S u r.
  assert (H : fst r = [0; 6.2; 0]).
  { unfold r. cbv [UpdateState fst vsub vzip]. list_eq; lra. }
  split; [exact H|]. split.
  - rewrite H. cbv [vget nth]. pose proof PI_4. lra.
  - change (x_ (snd r)) with (vadd (x_ u) (mat_vec (kalman_gain u 3 Zsig S [1; -3.1; 0]) (fst r))).
    rewrite H. reflexivity.
Qed.

(** ** C7: the predicted covariance *)

(** C7, counterexample.  [P7] is symmetric and positive definite, the time
    step is 1 s, and the covariance that [Prediction] stores has a negative
    variance on the first coordinate: the central sigma point carries the
    weight -4/3 and eight of the fourteen others have turned by pi. *)
Lemma predicted_covariance_not_psd :
  symmetric P7 /\ positive_definite 5 P7 /\ P_ u7 = P7 /\ 0 <= 1 /\
  quad_form (P_ (Prediction 1 u7)) [1; 0; 0; 0; 0] = - 727 / 144 /\
  ~ positive_semidefinite (P_ (Prediction 1 u7)).
Proof.
  split; [exact symmetric_P7|]. split; [exact positive_definite_P7|].
  split; [reflexivity|]. split; [lra|]. split; [exact quad_form_predicted_u7|].
  intros H. specialize (H [1; 0; 0; 0; 0]). rewrite quad_form_predicted_u7 in H. lra.
Qed.

(** C7, as the code has it.  For every filter with the constructor's
    dimensions and weights (no method changes them), every covariance and
    every time step, the
    predicted covariance is symmetric, and it is positive semi-definite once
    the contribution of the central sigma point, of weight -4/3, is added
    back: P_pred + 4/3 * d0 * d0^T, with d0 the deviation of sigma point 0
    from the predicted mean. *)
Theorem predicted_covariance_symmetric_up_to_centre (dt : R) (u : UKF) :
  n_x_ u = 5%nat -> n_aug_ u = 7%nat -> weights_ u = weights_ UKF_new ->
  let u' := Prediction dt u in
  let d0 := deviation (Xsig_pred_ u') (x_ u') 0 in
  symmetric (P_ u') /\
  positive_semidefinite (madd (P_ u') (outer (vscale (4 / 3) d0) d0)).
Proof.
  intros Hnx Hna Hw u' d0.
  assert (Hlen : forall i, In i (seq 0 (2 * n_aug_ u + 1)) ->
                           length (deviation (Xsig_pred_ u') (x_ u') i) = 5%nat).
  { intros i Hi. apply in_seq in Hi. apply length_deviation; [exact Hnx | lia]. }
  assert (HP : P_ u' = covariance_loop (weights_ u) (Xsig_pred_ u') (x_ u')
                                       (seq 0 (2 * n_aug_ u + 1)) (mzeros 5 5)).
  { unfold u'. rewrite P_Prediction, Hnx. reflexivity. }
  destruct (covariance_loop_spec 5 (weights_ u) (Xsig_pred_ u') (x_ u') _ Hlen
              (mzeros 5 5) (is_matrix_mzeros 5 5)) as (I1 & I2 & I3).
  rewrite <- HP in I1, I2, I3.
  split; [apply I2, symmetric_mzeros|].
  intros v.
  assert (Hd0 : length d0 = 5%nat) by (apply Hlen; rewrite Hna; left; reflexivity).
  rewrite (quad_form_madd 5 5); [|exact I1|].
  2:{ pose proof (is_matrix_outer (vscale (4 / 3) d0) d0) as H.
      rewrite length_vscale, Hd0 in H. exact H. }
  rewrite I3, quad_form_mzeros, quad_form_outer, dot_vscale_l, Hna, Hw.
  change (seq 0 (2 * 7 + 1)) with (0%nat :: seq 1 14).
  cbn [sum_over fold_right]. fold (sum_over (seq 1 14)). fold d0.
  assert (H0 : vget (weights_ UKF_new) 0 = - 4 / 3) by (rewrite weights_UKF_new; reflexivity).
  rewrite H0.
  pose proof (sum_over_nonneg (seq 1 14)
                (fun i => vget (weights_ UKF_new) i
                          * dot (deviation (Xsig_pred_ u') (x_ u') i) v ^ 2)) as Hs.
  unfold sum_over in *. cbv beta in Hs.
  match type of Hs with ?A -> _ => assert (Hpre : A) end.
  { intros i Hi. rewrite weights_UKF_new.
    apply Rmult_le_pos; [|apply pow2_ge_0].
    cbn [seq In] in Hi.
    repeat (destruct Hi as [<-|Hi]; [cbv [vget nth]; lra|]). contradiction. }
  specialize (Hs Hpre). lra.
Qed.

Lemma predicted_covariance_symmetric_up_to_centre_witness :
  n_x_ u7 = 5%nat /\ n_aug_ u7 = 7%nat /\ weights_ u7 = weights_ UKF_new /\
  symmetric (P_ (Prediction 1 u7)) /\
  positive_semidefinite
    (madd (P_ (Prediction 1 u7))
          (outer (vscale (4 / 3)
                         (deviation (Xsig_pred_ (Prediction 1 u7)) (x_ (Prediction 1 u7)) 0))
                 (deviation (Xsig_pred_ (Prediction 1 u7)) (x_ (Prediction 1 u7)) 0))).
Proof.
  split; [reflexivity|]. split; [reflexivity|]. split; [reflexivity|].
  apply (predicted_covariance_symmetric_up_to_centre 1 u7); reflexivity.
Defined.

(** ** C8: the weights *)

Lemma weights_double :
  Double.weights =
  SpecFloat.S754_finite true 6004799503160661 (-52)
  :: repeat (SpecFloat.S754_finite false 6004799503160661 (-55)) 14.
Proof. vm_compute. reflexivity. Qed.

Lemma value_finite (s : bool) (m e : positive) :
  Double.value (SpecFloat.S754_finite s m (Z.neg e))
  = IZR (SpecFloat.cond_Zopp s (Zpos m)) / 2 ^ Pos.to_nat e.
Proof. reflexivity. Qed.

(** C8, as stated, fails: the 15 doubles that the constructor stores do not
    add up to 1, neither as the real numbers they stand for nor when they
    are added in double precision in the order of the vector. *)
Theorem stored_weights_do_not_sum_to_one :
  fold_right Rplus 0 (map Double.value Double.weights) <> 1 /\
  fold_left Double.add Double.weights (Double.of_int 0) <> Double.of_int 1.
Proof.
  split.
  - rewrite weights_double. cbn [repeat map fold_right]. rewrite !value_finite.
    cbn [SpecFloat.cond_Zopp Z.opp].
    replace (2 ^ Pos.to_nat 52) with 4503599627370496 by (simpl; lra).
    replace (2 ^ Pos.to_nat 55) with 36028797018963968 by (simpl; lra).
    lra.
  - vm_compute. discriminate.
Qed.

(** C8, amended.  With lambda = 3 - n_aug and n_aug = 7 the constructor
    stores 15 doubles: weights(0) is -6004799503160661 * 2^-52, within 2^-53
    of lambda / (lambda + n_aug), and each of weights(1) .. weights(14) is
    6004799503160661 * 2^-55, within 2^-56 of 0.5 / (lambda + n_aug): the
    quotients rounded to the nearest double.  The stored weights add up to
    1 - 2^-54; the quotients themselves, in exact arithmetic, add up to 1. *)
Theorem stored_weights_of_the_constructor :
  Double.weights =
  SpecFloat.S754_finite true 6004799503160661 (-52)
  :: repeat (SpecFloat.S754_finite false 6004799503160661 (-55)) 14 /\
  length Double.weights = 15%nat /\
  Rabs (Double.value (nth 0 Double.weights (Double.of_int 0))
        - lambda_ UKF_new / (lambda_ UKF_new + INR (n_aug_ UKF_new))) <= / 2 ^ 53 /\
  Forall (fun i => Rabs (Double.value (nth i Double.weights (Double.of_int 0))
                         - 0.5 / (lambda_ UKF_new + INR (n_aug_ UKF_new))) <= / 2 ^ 56)
         (seq 1 14) /\
  fold_right Rplus 0 (map Double.value Double.weights) = 1 - / 2 ^ 54 /\
  fold_right Rplus 0 (weights_ UKF_new) = 1.
Proof.
  assert (E52 : 2 ^ Pos.to_nat 52 = 4503599627370496) by (simpl; lra).
  assert (E55 : 2 ^ Pos.to_nat 55 = 36028797018963968) by (simpl; lra).
  assert (E53 : 2 ^ 53 = 9007199254740992) by (simpl; lra).
  assert (E54 : 2 ^ 54 = 18014398509481984) by (simpl; lra).
  assert (E56 : 2 ^ 56 = 72057594037927936) by (simpl; lra).
  assert (Hl : lambda_ UKF_new + INR (n_aug_ UKF_new) = 3).
  { cbn [lambda_ n_aug_ UKF_new]. simpl INR. lra. }
  assert (Hl0 : lambda_ UKF_new = -4).
  { cbn [lambda_ n_aug_ UKF_new]. simpl INR. lra. }
  split; [exact weights_double|]. rewrite weights_double.
  split; [reflexivity|]. split; [|split; [|split]].
  - cbn [nth]. rewrite value_finite, E52, E53, Hl, Hl0. cbn [SpecFloat.cond_Zopp Z.opp].
    apply Rabs_le. lra.
  - rewrite Hl, E56. apply Forall_forall. intros i Hi. apply in_seq in Hi.
    destruct i as [|i]; [lia|]. cbn [nth].
    rewrite (nth_indep _ _ (SpecFloat.S754_finite false 6004799503160661 (-55)))
      by (rewrite repeat_length; lia).
    rewrite nth_repeat, value_finite, E55. cbn [SpecFloat.cond_Zopp].
    apply Rabs_le. lra.
  - cbn [repeat map fold_right]. rewrite !value_finite, E52, E55, E54.
    cbn [SpecFloat.cond_Zopp Z.opp]. lra.
  - rewrite weights_UKF_new. cbn [fold_right]. lra.
Qed.

(** ** C9: the NIS *)

(** C9, counterexample.  One second after the start, the laser record
    (1, 0) gives the local [nis] the value 200/417; the cycle writes nothing
    on [cout], so the value is not among what it wrote. *)
Lemma nis_not_reported :
  tracking 1 0 = ProcessMeasurement laser00 UKF_new /\
  is_initialized_ (tracking 1 0) = true /\
  cycle_nis laser_at_1s (tracking 1 0) = 200 / 417 /\
  cout (ProcessMeasurement laser_at_1s (tracking 1 0)) = cout (tracking 1 0) /\
  ~ reports_nis laser_at_1s (tracking 1 0).
Proof.
  split; [reflexivity|]. split; [reflexivity|]. split; [|split].
  - rewrite cycle_nis_laser by reflexivity.
    rewrite before_update_tracking, snd_UpdateLidar_body_set_previous_timestamp.
    rewrite (UpdateLidar_predicted 1 0 1 (s3 * sqrt 1) laser_at_1s)
      by (try lra; auto using angle_s3_sqrt1, angle_neg_s3_sqrt1).
    unfold snd.
    cbv [laser_at_1s raw_measurements_ S_tracking inverse det2 quad_form mat_vec map dot
         vsub vzip].
    rewrite cos_0, sin_0. s3_ring.
  - apply cout_ProcessMeasurement. reflexivity.
  - unfold reports_nis. rewrite cout_ProcessMeasurement by reflexivity.
    rewrite skipn_all. intros [].
Qed.

(** C9, as the code has it.  Each update computes
    innovation^T * S^-1 * innovation into a local and drops it: the cycle of
    a later record writes nothing on [cout], the value is not reported, and
    the filter it leaves is the predicted one with [x_] and [P_] replaced. *)
Theorem update_cycle_keeps_nis_local (m : MeasurementPackage) (u : UKF) :
  is_initialized_ u = true ->
  cout (ProcessMeasurement m u) = cout u /\
  ~ reports_nis m u /\
  ProcessMeasurement m u =
  set_P (P_ (ProcessMeasurement m u))
        (set_x (x_ (ProcessMeasurement m u)) (before_update m u)).
Proof.
  intros H. split; [exact (cout_ProcessMeasurement m u H)|]. split.
  - unfold reports_nis. rewrite (cout_ProcessMeasurement m u H), skipn_all. intros [].
  - exact (ProcessMeasurement_only_updates_estimate m u H).
Qed.

Lemma update_cycle_keeps_nis_local_witness :
  is_initialized_ (tracking 1 0) = true /\
  cout (ProcessMeasurement laser_at_1s (tracking 1 0)) = cout (tracking 1 0) /\
  ~ reports_nis laser_at_1s (tracking 1 0) /\
  ProcessMeasurement laser_at_1s (tracking 1 0) =
  set_P (P_ (ProcessMeasurement laser_at_1s (tracking 1 0)))
        (set_x (x_ (ProcessMeasurement laser_at_1s (tracking 1 0)))
               (before_update laser_at_1s (tracking 1 0))).
Proof.
  split; [reflexivity|].
  apply (update_cycle_keeps_nis_local laser_at_1s (tracking 1 0)). reflexivity.
Defined.

(** ** C10: the exit of the angle loops *)

(** In exact arithmetic the two loops stop for every angle: with enough
    iterations allowed they return, what they return is
    [angle_normalization], and it lies in [-pi, pi].  The same holds for the
    three loops over the sigma points that contain them: the covariance
    prediction, the innovation covariance of the radar and the
    cross-correlation.  This is what makes the functions of the real-number
    model total; it does not carry over to doubles. *)
Lemma exact_angle_loops_terminate :
  (forall a, exists fuel, forall k,
      normalize_fuel (fuel + k) a = Some (angle_normalization a) /\
      - PI <= angle_normalization a <= PI) /\
  (forall w Xsig x idx P0, exists fuel, forall k,
      covariance_loop_fuel (fuel + k) w Xsig x idx P0
      = Some (covariance_loop w Xsig x idx P0)) /\
  (forall w Zsig z_pred idx S0, exists fuel, forall k,
      radar_S_loop_fuel (fuel + k) w Zsig z_pred idx S0
      = Some (radar_S_loop w Zsig z_pred idx S0)) /\
  (forall u n_z Zsig z_pred, exists fuel, forall k,
      cross_correlation_fuel (fuel + k) u n_z Zsig z_pred
      = Some (cross_correlation u n_z Zsig z_pred)).
Proof.
  split; [|split; [|split]].
  - intros a. exists (turns a). intros k.
    split; [apply normalize_fuel_enough | apply angle_normalization_range].
  - intros w Xsig x idx P0.
    destruct (for_fuel_enough MatrixXd
      (fun fuel P i =>
         match normalize_at_fuel fuel 3 (vsub (nth i Xsig []) x) with
         | Some x_diff => Some (madd P (outer (vscale (vget w i) x_diff) x_diff))
         | None => None
         end)
      (fun P i => let x_diff := normalize_at 3 (vsub (nth i Xsig []) x) in
                  madd P (outer (vscale (vget w i) x_diff) x_diff))) with idx as (f & Hf).
    + intros i. exists (turns (vget (vsub (nth i Xsig []) x) 3)). intros k acc.
      rewrite normalize_at_fuel_enough. reflexivity.
    + exists f. intros k. apply Hf.
  - intros w Zsig z_pred idx S0.
    destruct (for_fuel_enough MatrixXd
      (fun fuel S i =>
         match normalize_at_fuel fuel 1 (vsub (nth i Zsig []) z_pred) with
         | Some z_diff => Some (madd S (outer (vscale (vget w i) z_diff) z_diff))
         | None => None
         end)
      (fun S i => let z_diff := normalize_at 1 (vsub (nth i Zsig []) z_pred) in
                  madd S (outer (vscale (vget w i) z_diff) z_diff))) with idx as (f & Hf).
    + intros i. exists (turns (vget (vsub (nth i Zsig []) z_pred) 1)). intros k acc.
      rewrite normalize_at_fuel_enough. reflexivity.
    + exists f. intros k. apply Hf.
  - intros u n_z Zsig z_pred.
    destruct (for_fuel_enough MatrixXd
      (fun fuel Tc i =>
         match normalize_at_fuel fuel 1 (vsub (nth i Zsig []) z_pred) with
         | Some z_diff =>
             match normalize_at_fuel fuel 3 (vsub (nth i (Xsig_pred_ u) []) (x_ u)) with
             | Some x_diff =>
                 Some (madd Tc (outer (vscale (vget (weights_ u) i) x_diff) z_diff))
             | None => None
             end
         | None => None
         end)
      (fun Tc i =>
         let z_diff := normalize_at 1 (vsub (nth i Zsig []) z_pred) in
         let x_diff := normalize_at 3 (vsub (nth i (Xsig_pred_ u) []) (x_ u)) in
         madd Tc (outer (vscale (vget (weights_ u) i) x_diff) z_diff)))
      with (seq 0 (2 * n_aug_ u + 1)) as (f & Hf).
    + intros i.
      exists (turns (vget (vsub (nth i Zsig []) z_pred) 1)
              + turns (vget (vsub (nth i (Xsig_pred_ u) []) (x_ u)) 3))%nat.
      intros k acc.
      rewrite <- Nat.add_assoc, normalize_at_fuel_enough.
      rewrite (normalize_at_fuel_mono _ _ _ _ _ (normalize_at_fuel_enough 3 _ 0)) by lia.
      reflexivity.
    + exists f. intros k. apply Hf.
Qed.

Lemma loop_above_stuck (a : Double.double) :
  Double.lt Double.M_PI a = true ->
  Double.sub a (Double.mul (Double.of_int 2) Double.M_PI) = a ->
  forall fuel, Double.loop_above fuel a = None.
Proof.
  intros Hgt Hsub fuel. induction fuel as [|k IH]; [reflexivity|].
  cbn [Double.loop_above]. rewrite Hgt, Hsub. exact IH.
Qed.

(** C10 fails on the doubles the code computes with.  A filter as the
    constructor and a first laser record leave it gets a second record
    3 * 10^8 s later.  In the covariance prediction the yaw residual
    [x_diff(3)] of sigma column 7 is then the finite double
    4871392896287467 * 2^4 (about 7.79 * 10^16); it is above [M_PI], and
    subtracting [2. * M_PI] from it gives the same double back, so
    [while (x_diff(3) > M_PI) x_diff(3) -= 2. * M_PI;] is still running
    after any number of iterations. *)
Theorem angle_loop_never_exits :
  Double.x_diff_yaw long_gap_yaws 7 = SpecFloat.S754_finite false 4871392896287467 4 /\
  Double.lt Double.M_PI (Double.x_diff_yaw long_gap_yaws 7) = true /\
  Double.sub (Double.x_diff_yaw long_gap_yaws 7) (Double.mul (Double.of_int 2) Double.M_PI)
  = Double.x_diff_yaw long_gap_yaws 7 /\
  forall fuel,
    Double.loop_above fuel (Double.x_diff_yaw long_gap_yaws 7) = None /\
    Double.normalize fuel (Double.x_diff_yaw long_gap_yaws 7) = None.
Proof.
  assert (E : Double.x_diff_yaw long_gap_yaws 7
              = SpecFloat.S754_finite false 4871392896287467 4) by (vm_compute; reflexivity).
  rewrite E.
  assert (H1 : Double.lt Double.M_PI (SpecFloat.S754_finite false 4871392896287467 4) = true)
    by (vm_compute; reflexivity).
  assert (H2 : Double.sub (SpecFloat.S754_finite false 4871392896287467 4)
                          (Double.mul (Double.of_int 2) Double.M_PI)
               = SpecFloat.S754_finite false 4871392896287467 4) by (vm_compute; reflexivity).
  split; [reflexivity|]. split; [exact H1|]. split; [exact H2|].
  intros fuel. pose proof (loop_above_stuck _ H1 H2 fuel) as H.
  split; [exact H|]. unfold Double.normalize. rewrite H. reflexivity.
Qed.

(** * Further properties of the filter *)

(** ** The angle loops and the clock *)

Lemma while_above_shift (n : nat) : forall a b,
  while_above n a = Some b -> exists j : nat, b = a - 2 * PI * INR j.
Proof.
  induction n as [|n IH]; intros a b H; [discriminate|].
  cbn [while_above] in H. destruct (Rlt_dec PI a).
  - destruct (IH _ _ H) as (j & ->). exists (S j). rewrite S_INR. ring.
  - injection H as <-. exists 0%nat. simpl. ring.
Qed.

Lemma while_below_shift (n : nat) : forall a b,
  while_below n a = Some b -> exists j : nat, b = a + 2 * PI * INR j.
Proof.
  induction n as [|n IH]; intros a b H; [discriminate|].
  cbn [while_below] in H. destruct (Rlt_dec a (- PI)).
  - destruct (IH _ _ H) as (j & ->). exists (S j). rewrite S_INR. ring.
  - injection H as <-. exists 0%nat. simpl. ring.
Qed.

(** X1 (angle loops of PredictMeanAndCovariance, UpdateRadar and UpdateState):
    for an angle of at most a thousand turns in size, the two [while] loops
    move it by a whole number of turns, at most a thousand, leave it in the
    closed interval from -pi to pi, and change nothing when run again. *)
Theorem angle_normalization_spec (a : R) :
  Rabs a <= 2000 * PI ->
  (exists k : Z, (Z.abs k <= 1000)%Z /\ angle_normalization a = a + 2 * PI * IZR k) /\
  - PI <= angle_normalization a <= PI /\
  angle_normalization (angle_normalization a) = angle_normalization a.
Proof.
  intros Ha. pose proof PI_RGT_0 as Hpi.
  pose proof (angle_normalization_range a) as Hr.
  split; [|split; [exact Hr|apply angle_normalization_id, Hr]].
  pose proof (angle_normalization_run a) as Hrun. unfold normalize_fuel in Hrun.
  destruct (while_above (turns a) a) as [b|] eqn:Hb; [|discriminate].
  destruct (while_above_shift _ _ _ Hb) as (j & ->).
  destruct (while_below_shift _ _ _ Hrun) as (i & Hi).
  exists (Z.of_nat i - Z.of_nat j)%Z.
  assert (E : angle_normalization a = a + 2 * PI * IZR (Z.of_nat i - Z.of_nat j)).
  { rewrite Hi, minus_IZR, <- !INR_IZR_INZ. ring. }
  split; [|exact E].
  rewrite E in Hr.
  assert (Ha' : - (2000 * PI) <= a <= 2000 * PI).
  { unfold Rabs in Ha. destruct (Rcase_abs a); lra. }
  clear Ha.
  apply Z.abs_le. split.
  - destruct (Z_le_gt_dec (-1000) (Z.of_nat i - Z.of_nat j)) as [H|H]; [exact H|].
    assert (H' : (Z.of_nat i - Z.of_nat j <= -1001)%Z) by lia.
    apply IZR_le in H'. nra.
  - destruct (Z_le_gt_dec (Z.of_nat i - Z.of_nat j) 1000) as [H|H]; [exact H|].
    assert (H' : (1001 <= Z.of_nat i - Z.of_nat j)%Z) by lia.
    apply IZR_le in H'. nra.
Qed.

Lemma angle_normalization_spec_witness :
  Rabs 7 <= 2000 * PI /\
  (exists k : Z, (Z.abs k <= 1000)%Z /\ angle_normalization 7 = 7 + 2 * PI * IZR k) /\
  - PI <= angle_normalization 7 <= PI /\
  angle_normalization (angle_normalization 7) = angle_normalization 7.
Proof.
  assert (H : Rabs 7 <= 2000 * PI).
  { pose proof PI_gt_3. rewrite Rabs_pos_eq; lra. }
  split; [exact H|]. exact (angle_normalization_spec 7 H).
Defined.

(** X2 (ProcessMeasurement): after a sequence of records that is not empty
    the filter is initialized and its clock is the timestamp of the last
    record, in whatever order the timestamps come. *)
Theorem records_set_clock_to_last (ms : list MeasurementPackage) (m : MeasurementPackage)
    (u : UKF) :
  let u' := fold_left (fun u m => ProcessMeasurement m u) (ms ++ [m]) u in
  is_initialized_ u' = true /\ previous_timestamp_ u' = timestamp_ m.
Proof.
  cbv zeta. rewrite fold_left_app. cbn [fold_left].
  generalize (fold_left (fun u m => ProcessMeasurement m u) ms u). intros w.
  unfold ProcessMeasurement.
  destruct (is_initialized_ w) eqn:Hi; cbn [negb].
  - destruct (sensor_type_ m); split; try reflexivity; exact Hi.
  - split; reflexivity.
Qed.

(** ** The process model on one sigma column *)

(** With a zero time step both branches of the process model and the noise
    terms leave the five state entries of a sigma column as they are. *)
Lemma predict_column_at_rest (c : VectorXd) :
  predict_column 0 c = [vget c 0; vget c 1; vget c 2; vget c 3; vget c 4].
Proof.
  unfold predict_column. cbv zeta.
  destruct (Rlt_dec 0.001 (Rabs (vget c 4))); list_eq;
    rewrite ?Rmult_0_r, ?Rplus_0_r, ?Rminus_diag; unfold Rminus;
    rewrite ?Rplus_opp_r, ?Rmult_0_r, ?Rmult_0_l, ?Rplus_0_r; try reflexivity; try ring.
Qed.

Lemma sin2_cos2_sum (x : R) : sin x * sin x + cos x * cos x = 1.
Proof. pose proof (sin2_cos2 x) as H. unfold Rsqr in H. exact H. Qed.

(** X3 (SigmaPointPrediction, turning branch): with a yaw rate above the
    threshold and no process noise, speed and yaw rate are kept, the yaw
    advances by [yawd * dt], and the position stays on the circle of radius
    [v / yawd] through the old position whose centre lies at right angles to
    the heading. *)
Theorem predict_column_turns_on_circle (dt p_x p_y v yaw yawd : R) :
  0.001 < Rabs yawd ->
  let r := v / yawd in
  let cx := p_x - r * sin yaw in
  let cy := p_y + r * cos yaw in
  exists px' py',
    predict_column dt [p_x; p_y; v; yaw; yawd; 0; 0] = [px'; py'; v; yaw + yawd * dt; yawd] /\
    (p_x - cx) ^ 2 + (p_y - cy) ^ 2 = r ^ 2 /\
    (px' - cx) ^ 2 + (py' - cy) ^ 2 = r ^ 2.
Proof.
  intros Hy r cx cy.
  exists (p_x + r * (sin (yaw + yawd * dt) - sin yaw)),
         (p_y + r * (cos yaw - cos (yaw + yawd * dt))).
  split; [|split].
  - unfold predict_column. cbv [vget nth]. cbv zeta.
    rewrite !(if_Rlt_true _ _ _ _ _ Hy). unfold r. list_eq; ring.
  - unfold cx, cy. pose proof (sin2_cos2_sum yaw). nra.
  - unfold cx, cy. pose proof (sin2_cos2_sum (yaw + yawd * dt)). nra.
Qed.

Lemma predict_column_turns_on_circle_witness :
  0.001 < Rabs 1 /\
  exists px' py',
    predict_column 1 [0; 0; 1; 0; 1; 0; 0] = [px'; py'; 1; 0 + 1 * 1; 1] /\
    (0 - (0 - 1 / 1 * sin 0)) ^ 2 + (0 - (0 + 1 / 1 * cos 0)) ^ 2 = (1 / 1) ^ 2 /\
    (px' - (0 - 1 / 1 * sin 0)) ^ 2 + (py' - (0 + 1 / 1 * cos 0)) ^ 2 = (1 / 1) ^ 2.
Proof.
  assert (H : 0.001 < Rabs 1) by (rewrite Rabs_R1; lra).
  split; [exact H|].
  exact (predict_column_turns_on_circle 1 0 0 1 0 1 H).
Defined.

(** X4 (SigmaPointPrediction): the process model does not depend on where
    the target is: moving a sigma column by [(a, b)] in the plane moves the
    predicted column by the same amount and changes nothing else, in both
    branches and with any noise. *)
Theorem predict_column_translation (dt a b p_x p_y v yaw yawd nu_a nu_yawdd : R) :
  predict_column dt [p_x + a; p_y + b; v; yaw; yawd; nu_a; nu_yawdd]
  = vadd (predict_column dt [p_x; p_y; v; yaw; yawd; nu_a; nu_yawdd]) [a; b; 0; 0; 0].
Proof.
  unfold predict_column. cbv [vget nth vadd vzip]. cbv zeta.
  destruct (Rlt_dec 0.001 (Rabs yawd)); list_eq; ring.
Qed.

(** X5 (SigmaPointPrediction): the process noise enters additively.  The
    predicted column of a sigma column with noise [(nu_a, nu_yawdd)] is the
    predicted column without noise plus the offsets that the accelerations
    cause over [dt], in both branches of the model. *)
Theorem predict_column_noise_is_additive (dt p_x p_y v yaw yawd nu_a nu_yawdd : R) :
  predict_column dt [p_x; p_y; v; yaw; yawd; nu_a; nu_yawdd]
  = vadd (predict_column dt [p_x; p_y; v; yaw; yawd; 0; 0])
         [0.5 * nu_a * dt * dt * cos yaw; 0.5 * nu_a * dt * dt * sin yaw; nu_a * dt;
          0.5 * nu_yawdd * dt * dt; nu_yawdd * dt].
Proof.
  unfold predict_column. cbv [vget nth vadd vzip]. cbv zeta.
  destruct (Rlt_dec 0.001 (Rabs yawd)); list_eq; ring.
Qed.

(** ** Polar coordinates *)

Lemma atan2_polar (rho phi : R) :
  0 < rho -> - PI < phi <= PI -> atan2 (rho * sin phi) (rho * cos phi) = phi.
Proof.
  intros Hr [H1 H2]. pose proof PI_RGT_0 as Hpi. unfold atan2.
  assert (Hq : forall c, c <> 0 -> rho * sin phi / (rho * c) = sin phi / c).
  { intros c Hc. field. split; lra. }
  destruct (Rlt_dec 0 (rho * cos phi)) as [Hc|Hc].
  - (* in front *)
    assert (Hcos : 0 < cos phi) by nra.
    assert (Hphi : - (PI / 2) < phi < PI / 2).
    { split; apply Rnot_le_lt; intros Hle.
      - destruct (Req_dec phi (- (PI / 2))) as [->|Hne];
          [rewrite cos_neg, cos_PI2 in Hcos; lra|].
        assert (cos phi < 0); [|lra].
        rewrite <- cos_neg. apply cos_lt_0; lra.
      - destruct (Req_dec phi (PI / 2)) as [->|Hne]; [rewrite cos_PI2 in Hcos; lra|].
        assert (cos phi < 0); [|lra]. apply cos_lt_0; lra. }
    rewrite Hq by lra. fold (tan phi). apply atan_tan. exact Hphi.
  - destruct (Rlt_dec (rho * cos phi) 0) as [Hc'|Hc'].
    + assert (Hcos : cos phi < 0) by nra.
      rewrite Hq by lra. fold (tan phi).
      destruct (Rlt_dec (rho * sin phi) 0) as [Hs|Hs].
      * (* behind, right *)
        assert (Hsin : sin phi < 0) by nra.
        assert (Hphi : - PI < phi < - (PI / 2)).
        { split; [exact H1|]. apply Rnot_le_lt. intros Hle.
          destruct (Rle_lt_dec phi 0) as [Hn|Hp].
          - destruct (Req_dec phi (- (PI / 2))) as [->|Hne];
              [rewrite cos_neg, cos_PI2 in Hcos; lra|].
            assert (0 < cos phi); [|lra]. apply cos_gt_0; lra.
          - destruct (Req_dec phi PI) as [->|Hne]; [rewrite sin_PI in Hsin; lra|].
            assert (0 < sin phi); [|lra]. apply sin_gt_0; lra. }
        replace (tan phi) with (tan (phi + PI)).
        2:{ unfold tan. rewrite neg_sin, neg_cos. field. lra. }
        rewrite atan_tan by lra. ring.
      * (* behind, left *)
        assert (Hsin : 0 <= sin phi) by nra.
        assert (Hphi : PI / 2 < phi <= PI).
        { split; [|exact H2]. apply Rnot_le_lt. intros Hle.
          destruct (Rle_lt_dec phi (- (PI / 2))) as [Hn|Hp].
          - destruct (Req_dec phi (- (PI / 2))) as [->|Hne];
              [rewrite cos_neg, cos_PI2 in Hcos; lra|].
            assert (sin phi < 0); [|lra]. apply sin_lt_0_var; lra.
          - destruct (Req_dec phi (PI / 2)) as [->|Hne]; [rewrite cos_PI2 in Hcos; lra|].
            assert (0 < cos phi); [|lra]. apply cos_gt_0; lra. }
        replace (tan phi) with (tan (phi - PI)).
        2:{ unfold tan. replace (phi - PI) with (- (PI - phi)) by ring.
            rewrite sin_neg, cos_neg, sin_PI_x, Rtrigo_facts.cos_pi_minus. field. lra. }
        rewrite atan_tan by lra. ring.
    + assert (Hcos : cos phi = 0) by nra.
      destruct (Rlt_dec 0 (rho * sin phi)) as [Hs|Hs].
      * assert (Hsin : 0 < sin phi) by nra.
        destruct (Rtotal_order phi (PI / 2)) as [Hlt|[->|Hgt]]; [|reflexivity|].
        -- destruct (Rle_lt_dec phi (- (PI / 2))) as [Hn|Hp].
           ++ destruct (Req_dec phi (- (PI / 2))) as [->|Hne];
                [rewrite sin_neg, sin_PI2 in Hsin; lra|].
              assert (sin phi < 0); [|lra]. apply sin_lt_0_var; lra.
           ++ assert (0 < cos phi); [|lra]. apply cos_gt_0; lra.
        -- assert (cos phi < 0); [|lra]. apply cos_lt_0; lra.
      * destruct (Rlt_dec (rho * sin phi) 0) as [Hs'|Hs'].
        -- assert (Hsin : sin phi < 0) by nra.
           destruct (Rtotal_order phi (- (PI / 2))) as [Hlt|[->|Hgt]]; [|reflexivity|].
           ++ assert (cos phi < 0); [|lra]. rewrite <- cos_neg. apply cos_lt_0; lra.
           ++ destruct (Rle_lt_dec (PI / 2) phi) as [Hn|Hp].
              ** destruct (Req_dec phi PI) as [->|Hne]; [rewrite sin_PI in Hsin; lra|].
                 assert (0 < sin phi); [|lra]. apply sin_gt_0; lra.
              ** assert (0 < cos phi); [|lra]. apply cos_gt_0; lra.
        -- assert (Hsin : sin phi = 0) by nra.
           pose proof (sin2_cos2_sum phi) as E. rewrite Hsin, Hcos in E. lra.
Qed.

Lemma range_polar (rho phi : R) :
  0 <= rho ->
  sqrt (rho * cos phi * (rho * cos phi) + rho * sin phi * (rho * sin phi)) = rho.
Proof.
  intros Hr. pose proof (sin2_cos2_sum phi).
  replace (rho * cos phi * (rho * cos phi) + rho * sin phi * (rho * sin phi))
    with (rho * rho) by nra.
  apply sqrt_square. exact Hr.
Qed.

(** ** Dimensions *)
Lemma is_matrix_mzip (f : R -> R -> R) (r c : nat) (A : MatrixXd) : forall B,
  is_matrix r c A -> is_matrix r c B -> is_matrix r c (mzip f A B).
Proof.
  revert r. induction A as [|a A IH]; intros r [|b B] HA HB;
    try (destruct HA as [HA _], HB as [HB _]; simpl in *; subst; discriminate);
    try exact HA.
  destruct r as [|r]; [destruct HA; discriminate|].
  apply is_matrix_cons in HA, HB. destruct HA as [Ha HA], HB as [Hb HB].
  cbn [mzip]. apply is_matrix_cons.
  split; [rewrite length_vzip; lia | apply IH; assumption].
Qed.

Lemma is_matrix_nth (r c : nat) (A : MatrixXd) (i : nat) :
  is_matrix r c A -> (i < r)%nat -> length (nth i A []) = c.
Proof.
  intros [Hl Hf] Hi. rewrite Forall_forall in Hf. apply Hf, nth_In. lia.
Qed.

Lemma is_matrix_map_seq (r c : nat) (f : nat -> VectorXd) :
  (forall i, (i < r)%nat -> length (f i) = c) -> is_matrix r c (map f (seq 0 r)).
Proof.
  intros H. split; [rewrite length_map, length_seq; reflexivity|].
  apply Forall_forall. intros row Hin. apply in_map_iff in Hin.
  destruct Hin as (i & <- & Hi). apply in_seq in Hi. apply H. lia.
Qed.

Lemma is_matrix_SigmaPointPrediction (dt : R) (u : UKF) :
  n_aug_ u = 7%nat -> is_matrix 15 5 (SigmaPointPrediction dt u).
Proof.
  intros Hn. unfold SigmaPointPrediction. rewrite Hn.
  apply (is_matrix_map_seq 15 5). intros i _. apply length_predict_column.
Qed.

Lemma length_predicted_mean (u : UKF) :
  n_x_ u = 5%nat -> n_aug_ u = 7%nat -> is_matrix 15 5 (Xsig_pred_ u) ->
  length (predicted_mean u) = 5%nat.
Proof.
  intros Hx Hn HX. unfold predicted_mean. apply length_mean_loop.
  - intros i Hi. apply in_seq in Hi. apply (is_matrix_nth 15 5); [exact HX | lia].
  - rewrite Hx. apply repeat_length.
Qed.

Lemma Prediction_well_shaped (dt : R) (u : UKF) :
  n_x_ u = 5%nat -> n_aug_ u = 7%nat -> well_shaped (Prediction dt u).
Proof.
  intros Hx Hn.
  assert (HX : is_matrix 15 5 (Xsig_pred_ (Prediction dt u))).
  { rewrite Xsig_pred_Prediction. apply is_matrix_SigmaPointPrediction. exact Hn. }
  assert (Hm : length (x_ (Prediction dt u)) = 5%nat).
  { rewrite x_Prediction. apply length_predicted_mean; assumption. }
  split; [exact Hx|]. split; [exact Hn|]. split; [exact Hm|]. split; [|exact HX].
  rewrite P_Prediction, Hx.
  apply (covariance_loop_spec 5); [|apply is_matrix_mzeros].
  intros i Hi. apply in_seq in Hi. unfold deviation.
  rewrite length_normalize_at. unfold vsub.
  rewrite length_vzip, (is_matrix_nth 15 5 _ i HX), Hm by lia. reflexivity.
Qed.

Lemma length_kalman_gain (u : UKF) (n_z : nat) (Zsig : Columns) (S : MatrixXd)
    (z_pred : VectorXd) :
  well_shaped u -> is_matrix 5 n_z (kalman_gain u n_z Zsig S z_pred).
Proof.
  intros (Hx & Hn & Hl & _ & HX). unfold kalman_gain, mmul, mul_transpose. split.
  - rewrite length_map, length_cross_correlation; [exact Hx|].
    intros i Hi. unfold vsub.
    rewrite length_vzip, (is_matrix_nth 15 5 _ i HX), Hl, Hx by lia. reflexivity.
  - apply Forall_forall. intros row Hin. apply in_map_iff in Hin.
    destruct Hin as (r & <- & _). unfold transpose.
    rewrite !length_map, length_seq. reflexivity.
Qed.

Lemma UpdateState_well_shaped (n_z : nat) (z : VectorXd) (Zsig : Columns) (S : MatrixXd)
    (z_pred : VectorXd) (u : UKF) :
  well_shaped u ->
  well_shaped (snd (UpdateState n_z z Zsig S z_pred u)).
Proof.
  intros Hu. pose proof (length_kalman_gain u n_z Zsig S z_pred Hu) as [HK1 HK2].
  destruct Hu as (Hx & Hn & Hl & HP & HX).
  unfold UpdateState. cbv zeta. cbn [snd].
  split; [exact Hx|]. split; [exact Hn|]. split; [|split; [|exact HX]].
  - cbn [x_ set_P set_x]. unfold vadd.
    rewrite length_vzip, length_mat_vec, HK1, Hl. reflexivity.
  - cbn [P_ set_P set_x]. apply is_matrix_mzip; [exact HP|].
    unfold mul_transpose. split.
    + rewrite length_map. unfold mmul, mul_transpose. rewrite length_map. exact HK1.
    + apply Forall_forall. intros row Hin. apply in_map_iff in Hin.
      destruct Hin as (r & <- & _). rewrite length_map. exact HK1.
Qed.

Lemma well_shaped_UKF_new : well_shaped UKF_new.
Proof.
  split; [reflexivity|]. split; [reflexivity|]. split; [reflexivity|]. split.
  - split; [reflexivity|]. repeat constructor.
  - split; [reflexivity|]. repeat constructor.
Qed.

Lemma Initialize_well_shaped (m : MeasurementPackage) (u : UKF) :
  well_shaped u -> well_shaped (Initialize m u).
Proof.
  intros (Hx & Hn & Hl & HP & HX).
  split; [exact Hx|]. split; [exact Hn|]. split; [|split; [exact HP | exact HX]].
  unfold Initialize. cbv zeta. cbn [x_ set_is_initialized set_previous_timestamp set_x].
  destruct (sensor_type_ m); rewrite !length_vset; unfold zeros; rewrite repeat_length;
    cbn [x_ print]; exact Hl.
Qed.

Lemma ProcessMeasurement_well_shaped (m : MeasurementPackage) (u : UKF) :
  well_shaped u -> well_shaped (ProcessMeasurement m u).
Proof.
  intros Hu.
  unfold ProcessMeasurement. destruct (is_initialized_ u); cbn [negb].
  - destruct Hu as (Hx & Hn & _).
    pose proof (Prediction_well_shaped (delta_t_of m u)
                  (set_previous_timestamp (timestamp_ m) u) Hx Hn) as Hp.
    destruct (sensor_type_ m).
    + exact (UpdateState_well_shaped 2 _ _ _ _ _ Hp).
    + exact (UpdateState_well_shaped 3 _ _ _ _ _ Hp).
  - apply Initialize_well_shaped. exact Hu.
Qed.

(** X6 (UKF, Initialize, Prediction, UpdateLidar, UpdateRadar, UpdateState):
    the dimensions are an invariant of the filter.  From a filter with a
    state of 5 entries, a 5x5 covariance and 15 predicted sigma columns of 5
    entries, any sequence of records, of either sensor and with any
    timestamps and readings, leads to a filter of the same dimensions. *)
Theorem records_keep_dimensions (ms : list MeasurementPackage) : forall u : UKF,
  well_shaped u ->
  well_shaped (fold_left (fun u m => ProcessMeasurement m u) ms u).
Proof.
  induction ms as [|m ms IH]; intros u Hu; [exact Hu|].
  cbn [fold_left]. apply IH, ProcessMeasurement_well_shaped, Hu.
Qed.

Lemma records_keep_dimensions_witness :
  well_shaped UKF_new /\
  well_shaped (fold_left (fun u m => ProcessMeasurement m u)
                         [laser00; laser_at_1s; radar_moving] UKF_new).
Proof.
  split; [exact well_shaped_UKF_new|].
  apply (records_keep_dimensions [laser00; laser_at_1s; radar_moving] UKF_new).
  exact well_shaped_UKF_new.
Defined.

(** ** Settings *)

Lemma ProcessMeasurement_settings (m : MeasurementPackage) (u : UKF) :
  let u' := ProcessMeasurement m u in
  (std_a_ u', std_yawdd_ u', std_laspx_ u', std_laspy_ u', std_radr_ u', std_radphi_ u',
   std_radrd_ u')
  = (std_a_ u, std_yawdd_ u, std_laspx_ u, std_laspy_ u, std_radr_ u, std_radphi_ u,
     std_radrd_ u) /\
  (n_x_ u', n_aug_ u', lambda_ u', weights_ u') = (n_x_ u, n_aug_ u, lambda_ u, weights_ u) /\
  (use_laser_ u', use_radar_ u', time_us_ u') = (use_laser_ u, use_radar_ u, time_us_ u).
Proof.
  cbv zeta. unfold ProcessMeasurement.
  destruct (is_initialized_ u); cbn [negb];
    [destruct (sensor_type_ m)|]; repeat split; reflexivity.
Qed.

(** X7 (ProcessMeasurement and all it calls): no sequence of records changes
    the settings of the filter: the seven noise standard deviations, the
    dimensions, lambda, the weights, the two sensor switches and [time_us_]
    after the run are those before it. *)
Theorem records_keep_settings (ms : list MeasurementPackage) : forall u : UKF,
  let u' := fold_left (fun u m => ProcessMeasurement m u) ms u in
  (std_a_ u', std_yawdd_ u', std_laspx_ u', std_laspy_ u', std_radr_ u', std_radphi_ u',
   std_radrd_ u')
  = (std_a_ u, std_yawdd_ u, std_laspx_ u, std_laspy_ u, std_radr_ u, std_radphi_ u,
     std_radrd_ u) /\
  (n_x_ u', n_aug_ u', lambda_ u', weights_ u') = (n_x_ u, n_aug_ u, lambda_ u, weights_ u) /\
  (use_laser_ u', use_radar_ u', time_us_ u') = (use_laser_ u, use_radar_ u, time_us_ u).
Proof.
  induction ms as [|m ms IH]; intros u; [repeat split; reflexivity|].
  cbn [fold_left]. cbv zeta in IH |- *.
  destruct (IH (ProcessMeasurement m u)) as (E1 & E2 & E3).
  destruct (ProcessMeasurement_settings m u) as (F1 & F2 & F3).
  rewrite E1, E2, E3. repeat split; assumption.
Qed.

(** ** A measurement equal to its prediction; symmetric matrices *)

Lemma vsub_diag (z : VectorXd) : vsub z z = zeros (length z).
Proof.
  unfold vsub, zeros. induction z as [|a z IH]; cbn [vzip length repeat]; [reflexivity|].
  rewrite IH. f_equal. ring.
Qed.

Lemma dot_zeros_r (v : VectorXd) (n : nat) : dot v (zeros n) = 0.
Proof. rewrite dot_comm. apply dot_zeros_l. Qed.

Lemma mat_vec_zeros (A : MatrixXd) (n : nat) : mat_vec A (zeros n) = zeros (length A).
Proof.
  unfold mat_vec, zeros at 2. induction A as [|r A IH]; cbn [map length repeat];
    [reflexivity|].
  rewrite IH, dot_zeros_r. reflexivity.
Qed.

Lemma vadd_zeros_r (x : VectorXd) : vadd x (zeros (length x)) = x.
Proof.
  unfold vadd, zeros. induction x as [|a x IH]; cbn [vzip length repeat]; [reflexivity|].
  rewrite IH. f_equal. ring.
Qed.

(** X8 (UpdateState): when [S] is invertible, a measurement equal to the
    predicted measurement changes nothing in the state: the innovation is
    the zero vector, the state estimate is the predicted one whatever the
    gain is, and the normalized innovation squared is 0. *)
Theorem UpdateState_zero_innovation (n_z : nat) (z : VectorXd) (Zsig : Columns)
    (S : MatrixXd) (u : UKF) :
  well_shaped u -> determinant S <> 0 ->
  let r := UpdateState n_z z Zsig S z u in
  fst r = zeros (length z) /\ x_ (snd r) = x_ u /\ quad_form (inverse S) (fst r) = 0.
Proof.
  intros Hu _ r. pose proof (length_kalman_gain u n_z Zsig S z Hu) as [HK _].
  destruct Hu as (_ & _ & Hl & _).
  assert (H : fst r = zeros (length z)) by apply vsub_diag.
  split; [exact H|]. split.
  - change (x_ (snd r)) with (vadd (x_ u) (mat_vec (kalman_gain u n_z Zsig S z) (fst r))).
    rewrite H, mat_vec_zeros, HK, <- Hl. apply vadd_zeros_r.
  - rewrite H. unfold quad_form. rewrite dot_comm. apply dot_zeros_r.
Qed.

Lemma well_shaped_predicted (p y dt : R) : well_shaped (predicted p y dt).
Proof.
  split; [reflexivity|]. split; [reflexivity|]. split; [reflexivity|]. split.
  - split; [reflexivity|]. repeat constructor.
  - split; [reflexivity|]. repeat constructor.
Qed.

Lemma determinant_S_tracking (p y dt : R) : 0 < p -> 0 < determinant (S_tracking p y dt).
Proof.
  intros Hp. cbv [determinant S_tracking det2].
  pose proof (sin2_cos2_sum y) as E.
  assert (Hm : 0 <= dt ^ 2 + dt ^ 4 / 16).
  { assert (0 <= dt ^ 2) by (apply pow2_ge_0).
    assert (0 <= dt ^ 4) by (replace (dt ^ 4) with ((dt ^ 2) ^ 2) by ring; apply pow2_ge_0).
    lra. }
  set (m := dt ^ 2 + dt ^ 4 / 16) in *.
  assert (0 <= cos y * cos y) by nra. assert (0 <= sin y * sin y) by nra.
  assert (0 <= m * (cos y * cos y)) by nra. assert (0 <= m * (sin y * sin y)) by nra.
  nra.
Qed.

(** The gain of the laser update one second after the start is not zero. *)
Lemma gain_of_predicted_tracking :
  mget (kalman_gain (predicted 1 0 1) 2 (Zsig_tracking 1 0 1) (S_tracking 1 0 1) [0; 0]) 0 0
  = 275 / 278.
Proof.
  unfold kalman_gain.
  rewrite (cross_correlation_predicted 1 0 1 (s3 * sqrt 1))
    by (try lra; auto using angle_s3_sqrt1, angle_neg_s3_sqrt1).
  cbv [Tc_tracking S_tracking inverse det2 mmul mul_transpose transpose col map seq nth
       dot mget].
  rewrite cos_0, sin_0. lra.
Qed.

Lemma UpdateState_zero_innovation_witness :
  well_shaped (predicted 1 0 1) /\ determinant (S_tracking 1 0 1) <> 0 /\
  let r := UpdateState 2 [0; 0] (Zsig_tracking 1 0 1) (S_tracking 1 0 1) [0; 0]
                       (predicted 1 0 1) in
  fst r = zeros (length [0; 0]) /\ x_ (snd r) = x_ (predicted 1 0 1) /\
  quad_form (inverse (S_tracking 1 0 1)) (fst r) = 0.
Proof.
  assert (Hd : determinant (S_tracking 1 0 1) <> 0).
  { pose proof (determinant_S_tracking 1 0 1 Rlt_0_1). lra. }
  split; [exact (well_shaped_predicted 1 0 1)|]. split; [exact Hd|].
  exact (UpdateState_zero_innovation 2 [0; 0] (Zsig_tracking 1 0 1) (S_tracking 1 0 1)
           (predicted 1 0 1) (well_shaped_predicted 1 0 1) Hd).
Defined.

(** Symmetry of sums, differences and of the innovation covariance. *)

(** A loop that accumulates w(i) * d(i) * d(i)^T. *)
Lemma outer_sum_spec (n : nat) (w : nat -> R) (d : nat -> VectorXd) (idx : list nat) :
  (forall i, In i idx -> length (d i) = n) ->
  forall S0, is_matrix n n S0 -> symmetric S0 ->
    let S := fold_left (fun S i => madd S (outer (vscale (w i) (d i)) (d i))) idx S0 in
    is_matrix n n S /\ symmetric S.
Proof.
  induction idx as [|i idx IH]; intros Hlen S0 H0 Hs; cbn [fold_left]; [split; assumption|].
  assert (Hd : length (d i) = n) by (apply Hlen; left; reflexivity).
  assert (Ho : is_matrix n n (outer (vscale (w i) (d i)) (d i))).
  { pose proof (is_matrix_outer (vscale (w i) (d i)) (d i)) as H.
    rewrite length_vscale, Hd in H. exact H. }
  apply IH.
  - intros k Hk. apply Hlen. right. exact Hk.
  - apply is_matrix_madd; assumption.
  - apply (symmetric_madd n); auto. apply symmetric_outer.
Qed.

Lemma length_cols_mul_vec (n : nat) (M : Columns) : forall w,
  Forall (fun c => length c = n) M -> length (cols_mul_vec n M w) = n.
Proof.
  induction M as [|c M IH]; intros w H; cbn [cols_mul_vec]; [apply repeat_length|].
  destruct w as [|a w]; [apply repeat_length|].
  inversion H; subst. unfold vadd.
  rewrite length_vzip, length_vscale, IH by assumption. lia.
Qed.

Lemma symmetric_diag2 (a b : R) : symmetric [[a; 0]; [0; b]].
Proof.
  intros i j. unfold mget.
  do 3 (destruct i as [|i]; [do 3 (destruct j as [|j]; [reflexivity|]); destruct j; reflexivity|]).
  destruct i; do 3 (destruct j as [|j]; [reflexivity|]); destruct j; reflexivity.
Qed.

Lemma symmetric_diag3 (a b c : R) : symmetric [[a; 0; 0]; [0; b; 0]; [0; 0; c]].
Proof.
  intros i j. unfold mget.
  do 4 (destruct i as [|i]; [do 4 (destruct j as [|j]; [reflexivity|]); destruct j; reflexivity|]).
  destruct i; do 4 (destruct j as [|j]; [reflexivity|]); destruct j; reflexivity.
Qed.

Lemma lidar_S_symmetric (u : UKF) :
  n_aug_ u = 7%nat ->
  let Zsig := lidar_Zsig u in
  let S := lidar_S u Zsig (cols_mul_vec 2 Zsig (weights_ u)) in
  is_matrix 2 2 S /\ symmetric S.
Proof.
  intros Hn Zsig S.
  assert (HZ : is_matrix 15 2 Zsig).
  { unfold Zsig, lidar_Zsig. rewrite Hn. apply (is_matrix_map_seq 15 2). reflexivity. }
  destruct (outer_sum_spec 2 (vget (weights_ u))
              (fun i => vsub (nth i Zsig []) (cols_mul_vec 2 Zsig (weights_ u)))
              (seq 0 (2 * n_aug_ u + 1))) with (S0 := mzeros 2 2) as [H1 H2].
  - intros i Hi. apply in_seq in Hi. rewrite Hn in Hi. unfold vsub.
    rewrite length_vzip, (is_matrix_nth 15 2 _ i HZ) by lia.
    rewrite length_cols_mul_vec by apply HZ. reflexivity.
  - apply is_matrix_mzeros.
  - apply symmetric_mzeros.
  - unfold S, lidar_S. split.
    + apply is_matrix_madd; [exact H1|]. split; [reflexivity | repeat constructor].
    + apply (symmetric_madd 2); [exact H1 | | exact H2 | apply symmetric_diag2].
      split; [reflexivity | repeat constructor].
Qed.

Lemma radar_S_symmetric (u : UKF) :
  n_aug_ u = 7%nat ->
  let Zsig := radar_Zsig u in
  let S := radar_S u Zsig (cols_mul_vec 3 Zsig (weights_ u)) in
  is_matrix 3 3 S /\ symmetric S.
Proof.
  intros Hn Zsig S.
  assert (HZ : is_matrix 15 3 Zsig).
  { unfold Zsig, radar_Zsig. rewrite Hn. apply (is_matrix_map_seq 15 3). reflexivity. }
  destruct (outer_sum_spec 3 (vget (weights_ u))
              (fun i => normalize_at 1 (vsub (nth i Zsig []) (cols_mul_vec 3 Zsig (weights_ u))))
              (seq 0 (2 * n_aug_ u + 1))) with (S0 := mzeros 3 3) as [H1 H2].
  - intros i Hi. apply in_seq in Hi. rewrite Hn in Hi. rewrite length_normalize_at. unfold vsub.
    rewrite length_vzip, (is_matrix_nth 15 3 _ i HZ) by lia.
    rewrite length_cols_mul_vec by apply HZ. reflexivity.
  - apply is_matrix_mzeros.
  - apply symmetric_mzeros.
  - unfold S, radar_S, radar_S_loop. split.
    + apply is_matrix_madd; [exact H1|]. split; [reflexivity | repeat constructor].
    + apply (symmetric_madd 3); [exact H1 | | exact H2 | apply symmetric_diag3].
      split; [reflexivity | repeat constructor].
Qed.

(** X9 (UpdateLidar, UpdateRadar): when no predicted sigma point lies at the
    origin of the plane, where the radar model would divide by a zero
    range, the innovation covariance that either update builds from the
    predicted sigma points, the sum of weighted outer products plus the
    diagonal measurement noise, is a symmetric matrix, 2x2 for the laser and
    3x3 for the radar. *)
Theorem innovation_covariance_symmetric (u : UKF) :
  n_aug_ u = 7%nat -> Forall off_origin (Xsig_pred_ u) ->
  symmetric (lidar_S u (lidar_Zsig u) (cols_mul_vec 2 (lidar_Zsig u) (weights_ u))) /\
  symmetric (radar_S u (radar_Zsig u) (cols_mul_vec 3 (radar_Zsig u) (weights_ u))).
Proof.
  intros Hn _. split.
  - apply (lidar_S_symmetric u Hn).
  - apply (radar_S_symmetric u Hn).
Qed.

Lemma off_origin_X7 : Forall off_origin X7.
Proof.
  pose proof sqrt3_bounds as Hs. fold s3 in Hs.
  unfold X7. repeat constructor; cbv [off_origin vget nth]; nra.
Qed.

Lemma innovation_covariance_symmetric_witness :
  n_aug_ (Prediction 1 u7) = 7%nat /\ Forall off_origin (Xsig_pred_ (Prediction 1 u7)) /\
  symmetric (lidar_S (Prediction 1 u7) (lidar_Zsig (Prediction 1 u7))
               (cols_mul_vec 2 (lidar_Zsig (Prediction 1 u7)) (weights_ (Prediction 1 u7)))) /\
  symmetric (radar_S (Prediction 1 u7) (radar_Zsig (Prediction 1 u7))
               (cols_mul_vec 3 (radar_Zsig (Prediction 1 u7)) (weights_ (Prediction 1 u7)))).
Proof.
  assert (H : Forall off_origin (Xsig_pred_ (Prediction 1 u7))).
  { rewrite Xsig_pred_Prediction, SigmaPointPrediction_u7. exact off_origin_X7. }
  split; [reflexivity|]. split; [exact H|].
  exact (innovation_covariance_symmetric (Prediction 1 u7) eq_refl H).
Defined.

(** ** Vectors and matrices by their entries *)

Lemma vector_explicit (c : nat) (v : VectorXd) :
  length v = c -> v = map (fun j => nth j v 0) (seq 0 c).
Proof.
  intros H. apply (nth_ext _ _ 0 0).
  - rewrite length_map, length_seq. exact H.
  - intros k Hk. rewrite nth_map_seq by lia. reflexivity.
Qed.

Lemma is_matrix_explicit (r c : nat) (A : MatrixXd) :
  is_matrix r c A -> A = map (fun i => map (fun j => mget A i j) (seq 0 c)) (seq 0 r).
Proof.
  intros HA. apply (nth_ext _ _ [] []).
  - rewrite length_map, length_seq. apply HA.
  - intros k Hk. destruct HA as [Hl Hf]. rewrite nth_map_seq by lia.
    unfold mget. apply vector_explicit.
    rewrite Forall_forall in Hf. apply Hf, nth_In. exact Hk.
Qed.

(** ** The laser update after a prediction *)

Lemma lidar_prediction_from_columns (X : Columns) :
  is_matrix 15 5 X ->
  let W := weights_ UKF_new in
  let m := fold_left (fun x i => vadd x (vscale (vget W i) (nth i X []))) (seq 0 15) (zeros 5) in
  let Zsig := map (fun i => [vget (nth i X []) 0; vget (nth i X []) 1]) (seq 0 15) in
  cols_mul_vec 2 Zsig W = [vget m 0; vget m 1].
Proof.
  intros HX W m Zsig. unfold m, Zsig, W. rewrite weights_UKF_new.
  rewrite (is_matrix_explicit 15 5 X HX).
  cbv [map seq fold_left nth vget vadd vzip vscale zeros repeat cols_mul_vec].
  list_eq; lra.
Qed.

Lemma lidar_S_from_columns (W : VectorXd) (X : Columns) (x : VectorXd) :
  is_matrix 15 5 X -> length x = 5%nat ->
  let P := covariance_loop W X x (seq 0 15) (mzeros 5 5) in
  let Zsig := map (fun i => [vget (nth i X []) 0; vget (nth i X []) 1]) (seq 0 15) in
  fold_left (fun S i =>
               let z_diff := vsub (nth i Zsig []) [vget x 0; vget x 1] in
               madd S (outer (vscale (vget W i) z_diff) z_diff))
            (seq 0 15) (mzeros 2 2)
  = [[mget P 0 0; mget P 0 1]; [mget P 1 0; mget P 1 1]].
Proof.
  intros HX Hx P Zsig. unfold P, Zsig, covariance_loop.
  rewrite (is_matrix_explicit 15 5 X HX), (vector_explicit 5 x Hx).
  cbv [map seq fold_left nth vget vsub vzip vscale outer madd mzip mzeros zeros repeat
       normalize_at vset mget].
  list_eq; ring.
Qed.

Lemma Prediction_fields (dt : R) (u : UKF) :
  n_x_ (Prediction dt u) = n_x_ u /\ n_aug_ (Prediction dt u) = n_aug_ u /\
  weights_ (Prediction dt u) = weights_ u /\
  std_laspx_ (Prediction dt u) = std_laspx_ u /\ std_laspy_ (Prediction dt u) = std_laspy_ u.
Proof. repeat split; reflexivity. Qed.

Lemma x_Prediction_fold (dt : R) (u : UKF) :
  x_ (Prediction dt u) =
  fold_left (fun x i => vadd x (vscale (vget (weights_ u) i)
                                        (nth i (SigmaPointPrediction dt u) [])))
            (seq 0 (2 * n_aug_ u + 1)) (zeros (n_x_ u)).
Proof. reflexivity. Qed.

(** X11 (UpdateLidar after Prediction): the laser measurement model is linear,
    so the sigma points pass through it exactly.  After a prediction step
    the predicted laser measurement is the position part of the predicted
    state, and the innovation covariance is the position block of the
    predicted covariance plus the laser noise variances on the diagonal. *)
Theorem lidar_prediction_is_position_block (dt : R) (u0 : UKF) :
  n_x_ u0 = 5%nat -> n_aug_ u0 = 7%nat -> weights_ u0 = weights_ UKF_new ->
  let u := Prediction dt u0 in
  let Zsig := lidar_Zsig u in
  let z_pred := cols_mul_vec 2 Zsig (weights_ u) in
  z_pred = [vget (x_ u) 0; vget (x_ u) 1] /\
  lidar_S u Zsig z_pred =
  [[mget (P_ u) 0 0 + std_laspx_ u0 * std_laspx_ u0; mget (P_ u) 0 1];
   [mget (P_ u) 1 0; mget (P_ u) 1 1 + std_laspy_ u0 * std_laspy_ u0]].
Proof.
  intros Hx Hn Hw u Zsig z_pred.
  destruct (Prediction_fields dt u0) as (F1 & F2 & F3 & F4 & F5).
  pose proof (Prediction_well_shaped dt u0 Hx Hn) as (_ & _ & Hm & _ & HX).
  fold u in F1, F2, F3, F4, F5, Hm, HX.
  assert (Hz : z_pred = [vget (x_ u) 0; vget (x_ u) 1]).
  { unfold z_pred, Zsig, lidar_Zsig. rewrite F2, F3, Hn, Hw.
    unfold u at 3 4. rewrite x_Prediction_fold, Hn, Hx, Hw.
    change (SigmaPointPrediction dt u0) with (Xsig_pred_ u).
    exact (lidar_prediction_from_columns (Xsig_pred_ u) HX). }
  split; [exact Hz|].
  rewrite Hz. unfold lidar_S. rewrite F4, F5.
  unfold Zsig, lidar_Zsig. rewrite F2, Hn.
  change (2 * 7 + 1)%nat with 15%nat.
  pose proof (lidar_S_from_columns (weights_ u) (Xsig_pred_ u) (x_ u) HX Hm) as HS.
  cbv zeta in HS. cbv zeta. rewrite HS.
  assert (HP : P_ u = covariance_loop (weights_ u) (Xsig_pred_ u) (x_ u) (seq 0 15)
                                      (mzeros 5 5)).
  { unfold u. rewrite P_Prediction, Hx, Hn. reflexivity. }
  rewrite <- HP.
  cbv [madd mzip vzip]. list_eq; ring.
Qed.

Lemma lidar_prediction_is_position_block_witness :
  n_x_ UKF_new = 5%nat /\ n_aug_ UKF_new = 7%nat /\ weights_ UKF_new = weights_ UKF_new /\
  let u := Prediction 1 UKF_new in
  let Zsig := lidar_Zsig u in
  let z_pred := cols_mul_vec 2 Zsig (weights_ u) in
  z_pred = [vget (x_ u) 0; vget (x_ u) 1] /\
  lidar_S u Zsig z_pred =
  [[mget (P_ u) 0 0 + std_laspx_ UKF_new * std_laspx_ UKF_new; mget (P_ u) 0 1];
   [mget (P_ u) 1 0; mget (P_ u) 1 1 + std_laspy_ UKF_new * std_laspy_ UKF_new]].
Proof.
  split; [reflexivity|]. split; [reflexivity|]. split; [reflexivity|].
  apply (lidar_prediction_is_position_block 1 UKF_new); reflexivity.
Defined.

(** ** A prediction over a zero time step *)

(** X13 (Prediction, SigmaPointPrediction): a prediction over a zero time
    step leaves the sigma points where they are: every predicted sigma
    column is the state part of its augmented sigma column, in both
    branches of the process model and whatever its noise entries are. *)
Theorem zero_step_prediction_keeps_sigma_points (u : UKF) :
  Xsig_pred_ (Prediction 0 u) =
  map (fun i => let c := nth i (AugmentedSigmaPoints u) [] in
                [vget c 0; vget c 1; vget c 2; vget c 3; vget c 4])
      (seq 0 (2 * n_aug_ u + 1)).
Proof.
  rewrite Xsig_pred_Prediction. unfold SigmaPointPrediction. cbv zeta.
  apply map_ext. intros i. apply predict_column_at_rest.
Qed.

(** ** The measurement model of the radar *)

(** X14 (measurement model of UpdateRadar): the radar model computes polar
    coordinates.  A predicted sigma column whose position is
    [(rho * cos phi, rho * sin phi)], with [rho > 0] and [phi] in the
    half-open interval from -pi to pi, is mapped to the range [rho], the
    bearing [phi] and the range rate [v * cos (yaw - phi)], the part of the
    velocity along the line of sight. *)
Theorem radar_model_is_polar (u : UKF) (i : nat) (rho phi : R) :
  (i < 2 * n_aug_ u + 1)%nat -> 0 < rho -> - PI < phi <= PI ->
  vget (nth i (Xsig_pred_ u) []) 0 = rho * cos phi ->
  vget (nth i (Xsig_pred_ u) []) 1 = rho * sin phi ->
  nth i (radar_Zsig u) [] =
  [rho; phi;
   vget (nth i (Xsig_pred_ u) []) 2 * cos (vget (nth i (Xsig_pred_ u) []) 3 - phi)].
Proof.
  intros Hi Hr Hphi Hx Hy.
  unfold radar_Zsig. rewrite nth_map_seq by exact Hi. cbv zeta. rewrite Hx, Hy.
  rewrite range_polar by lra. rewrite atan2_polar by assumption.
  rewrite cos_minus. list_eq. field. lra.
Qed.

Lemma radar_model_is_polar_witness :
  (4 < 2 * n_aug_ (Prediction 1 u7) + 1)%nat /\ 0 < 2 /\ - PI < PI <= PI /\
  vget (nth 4 (Xsig_pred_ (Prediction 1 u7)) []) 0 = 2 * cos PI /\
  vget (nth 4 (Xsig_pred_ (Prediction 1 u7)) []) 1 = 2 * sin PI /\
  nth 4 (radar_Zsig (Prediction 1 u7)) [] =
  [2; PI;
   vget (nth 4 (Xsig_pred_ (Prediction 1 u7)) []) 2
   * cos (vget (nth 4 (Xsig_pred_ (Prediction 1 u7)) []) 3 - PI)].
Proof.
  assert (H1 : (4 < 2 * n_aug_ (Prediction 1 u7) + 1)%nat) by (simpl; lia).
  assert (H2 : 0 < 2) by lra.
  assert (H3 : - PI < PI <= PI) by (pose proof PI_RGT_0; lra).
  assert (H4 : vget (nth 4 (Xsig_pred_ (Prediction 1 u7)) []) 0 = 2 * cos PI).
  { rewrite Xsig_pred_Prediction, SigmaPointPrediction_u7, cos_PI.
    cbv [X7 nth vget]. lra. }
  assert (H5 : vget (nth 4 (Xsig_pred_ (Prediction 1 u7)) []) 1 = 2 * sin PI).
  { rewrite Xsig_pred_Prediction, SigmaPointPrediction_u7, sin_PI.
    cbv [X7 nth vget]. lra. }
  split; [exact H1|]. split; [exact H2|]. split; [exact H3|]. split; [exact H4|].
  split; [exact H5|].
  exact (radar_model_is_polar (Prediction 1 u7) 4 2 PI H1 H2 H3 H4 H5).
Defined.
